(** * Solar-Berechnung-EU-basic: the financial scenario engine of [code.py]

    A shallow embedding of the helper functions and of the calculation block
    of [code.py], and the properties of the specification checked against it.

    Number model.  Python's [float] values are idealised as exact
    rationals [Q]: [+], [-], [*] are exact and total, [/] raises
    [ZeroDivisionError] on a zero divisor (whatever the numerator), and
    [b ** n] with an [int] exponent [n >= 0] is the [n]-fold product, with
    [0 ** 0 = 1]; it raises [OverflowError] when that product is outside
    the binary64 range, and it is the float zero when the product
    underflows, so that dividing by it raises [ZeroDivisionError].
    Rounding to 53 bits, and the infinities and NaN that [+], [-], [*] and
    [/] produce silently, are not modelled.  The conversion [float(value)]
    in [parse_de_number] is modelled at the level of the binary64
    representation (module [Parser]). *)

From Stdlib Require Import ZArith QArith Qabs Qpower Lqa Lia.
From Stdlib Require Import List Bool String Ascii.
From Stdlib Require Import Floats.SpecFloat.
Import ListNotations.

Local Open Scope Q_scope.

(* ===================================================================== *)
(** ** Python prelude: exceptions, arithmetic, list helpers              *)
(* ===================================================================== *)

Module Py.

Inductive exn : Type :=
| ZeroDivisionError
| OverflowError
| ValueError
| LookupFailure.

(** The result of evaluating a Python expression or block. *)
Inductive res (A : Type) : Type :=
| Ok (a : A)
| Raise (e : exn).
Arguments Ok {A} a.
Arguments Raise {A} e.

Definition bind {A B} (c : res A) (k : A -> res B) : res B :=
  match c with
  | Ok a => k a
  | Raise e => Raise e
  end.

(** [try: c except: h] with a bare [except]. *)
Definition try_except {A} (c : res A) (h : res A) : res A :=
  match c with
  | Ok a => Ok a
  | Raise _ => h
  end.

(** A list comprehension whose element expression may raise: elements are
    evaluated left to right and the first exception aborts the whole. *)
Fixpoint comprehension {A B} (f : A -> res B) (l : list A) : res (list B) :=
  match l with
  | [] => Ok []
  | x :: t =>
      bind (f x) (fun y => bind (comprehension f t) (fun ys => Ok (y :: ys)))
  end.

Fixpoint enumerate_from {A} (i : nat) (l : list A) : list (nat * A) :=
  match l with
  | [] => []
  | x :: t => (i, x) :: enumerate_from (S i) t
  end.

Definition enumerate {A} (l : list A) : list (nat * A) := enumerate_from 0 l.

(** [sum(l)]: left to right, starting from [0]. *)
Definition sum (l : list Q) : Q := fold_left Qplus l 0.

(** [a / b]. *)
Definition div (a b : Q) : res Q :=
  if Qeq_bool b 0 then Raise ZeroDivisionError else Ok (a / b).

(** The value of [b ** n] for an [int] exponent [n >= 0]. *)
Definition pow (b : Q) (n : nat) : Q := b ^ Z.of_nat n.

(** [a < b] and [a >= b]. *)
Definition ltb (a b : Q) : bool := negb (Qle_bool b a).
Definition geb (a b : Q) : bool := Qle_bool b a.

Definition of_nat (n : nat) : Q := inject_Z (Z.of_nat n).

(** The least magnitude that rounds to an infinity in binary64: half an
    ulp above the largest finite double, [2^1024 - 2^970]. *)
Definition float_limit : Q := inject_Z (2 ^ 1024 - 2 ^ 970).

Definition in_range (x : Q) : bool := ltb (Qabs x) float_limit.

(** Half the least positive double, [2^-1075]: a magnitude up to it rounds
    to the float zero. *)
Definition float_tiny : Q := 1 # (2 ^ 1075).

Definition vanishing (x : Q) : bool := Qle_bool (Qabs x) float_tiny.

(** The float that a value in range is: the value itself, or zero when it
    underflows. *)
Definition rounded (x : Q) : Q := if vanishing x then 0 else x.

(** [b ** n] on floats, for an [int] exponent [n >= 0]: [OverflowError]
    ("Numerical result out of range") when the power is out of range; an
    underflow is not an error and gives [0.0]. *)
Definition power (b : Q) (n : nat) : res Q :=
  if in_range (pow b n) then Ok (rounded (pow b n)) else Raise OverflowError.

End Py.

Import Py.

Notation "x <- c ;; k" := (bind c (fun x => k))
  (at level 61, c at next level, right associativity).

(* ===================================================================== *)
(** ** 1. Helper functions                                               *)
(* ===================================================================== *)

Module Irr.

(** [[cf / ((1+rate)**i) for i, cf in enumerate(cashflows)]] *)
Definition npv_terms (cashflows : list Q) (rate : Q) : res (list Q) :=
  comprehension (fun '(i, cf) => d <- power (1 + rate) i ;; div cf d)
                (enumerate cashflows).

(** [[-i * cf / ((1+rate)**(i+1)) for i, cf in enumerate(cashflows)]] *)
Definition derivative_terms (cashflows : list Q) (rate : Q) : res (list Q) :=
  comprehension
    (fun '(i, cf) => d <- power (1 + rate) (i + 1) ;; div (- of_nat i * cf) d)
    (enumerate cashflows).

(** What one pass through the body of the [for] loop does. *)
Inductive step : Type :=
| Return (r : option Q)
| Next (rate : Q).

Definition irr_body (cashflows : list Q) (rate : Q) : res step :=
  terms <- npv_terms cashflows rate ;;
  let npv := sum terms in
  dterms <- derivative_terms cashflows rate ;;
  let derivative := sum dterms in
  if ltb (Qabs derivative) 1e-10 then Ok (Return None)
  else
    q <- div npv derivative ;;
    let new_rate := rate - q in
    if ltb (Qabs (new_rate - rate)) 1e-7 then Ok (Return (Some new_rate))
    else Ok (Next new_rate).

(** [for _ in range(n)]: the body runs inside [try ... except: return None],
    which catches the division by zero and the overflow alike; when the
    range is exhausted the function returns [None]. *)
Fixpoint irr_loop (n : nat) (cashflows : list Q) (rate : Q) : res (option Q) :=
  match n with
  | O => Ok None
  | S n' =>
      s <- try_except (irr_body cashflows rate) (Ok (Return None)) ;;
      match s with
      | Return r => Ok r
      | Next rate' => irr_loop n' cashflows rate'
      end
  end.

Definition calculate_irr (cashflows : list Q) (guess : Q) : res (option Q) :=
  irr_loop 100 cashflows guess.

(** [calculate_irr(cashflows)] with the default [guess=0.1]. *)
Definition calculate_irr_default (cashflows : list Q) : res (option Q) :=
  calculate_irr cashflows 0.1.

End Irr.

Module Helpers.

Section Lookups.

(** The remote services, as oracles.  [geocode address] is
    [geolocator.geocode(address)]: it may raise, return [None], or a
    location [(latitude, longitude)].  [pvgis_request lat lon kwp angle
    aspect loss] is the whole of [requests.get(...)] followed by
    [r.json()['outputs']['totals']['fixed']['E_y']]: it raises on a
    network or parse failure. *)
Variable geocode : string -> res (option (Q * Q)).
Variable pvgis_request : Q -> Q -> Q -> Z -> Z -> Q -> res Q.

(** [get_coordinates]: [None] stands for the pair [(None, None)]. *)
Definition get_coordinates (address : string) : res (option (Q * Q)) :=
  try_except
    (location <- geocode address ;;
     match location with
     | Some (latitude, longitude) => Ok (Some (latitude, longitude))
     | None => Ok None
     end)
    (Ok None).

(** [get_pvgis_data], called with the default [loss=14]. *)
Definition get_pvgis_data (lat lon kwp : Q) (angle aspect : Z)
  : res (option Q) :=
  if Qle_bool kwp 0 then Ok (Some 0)
  else
    try_except
      (e_y <- pvgis_request lat lon kwp angle aspect 14 ;; Ok (Some e_y))
      (Ok None).

End Lookups.

End Helpers.

(* ===================================================================== *)
(** ** 2. Inputs                                                         *)
(* ===================================================================== *)

Module Engine.

Inductive capex_method : Type :=
| PerKwp (price_kwp : Q)      (* "€/kWp" *)
| Total (total_invest : Q).   (* "Total" *)

(** The values of the widgets, as entered (percentages still in percent). *)
Record inputs : Type := {
  addr : string;
  angle : Z;
  aspect : Z;
  area : Q;
  invest_type : capex_method;
  opex_input : Q;
  self_use_input : Q;
  p_industry_input : Q;
  p_market_input : Q;
  wacc_input : Q;
  degr_avg_input : Q;
  degr_worst_input : Q;
  infl_avg_input : Q;
  merit_drop_input : Q;
  inv_cost : Q;
  inv_year : nat
}.

Definition kwp (i : inputs) : Q := area i / 6.

Definition capex (i : inputs) : Q :=
  match invest_type i with
  | PerKwp price_kwp => kwp i * price_kwp
  | Total total_invest => total_invest
  end.

Definition opex_pct (i : inputs) : Q := opex_input i / 100.
Definition opex_fix (i : inputs) : Q := capex i * opex_pct i.
Definition self_use (i : inputs) : Q := self_use_input i / 100.
Definition p_industry (i : inputs) : Q := p_industry_input i / 100.
Definition p_market (i : inputs) : Q := p_market_input i / 100.
Definition wacc (i : inputs) : Q := wacc_input i / 100.
Definition degr_avg (i : inputs) : Q := degr_avg_input i / 100.
Definition degr_worst (i : inputs) : Q := degr_worst_input i / 100.
Definition infl_avg (i : inputs) : Q := infl_avg_input i / 100.
Definition merit_drop (i : inputs) : Q := merit_drop_input i / 100.

(** The default location, [lat, lon = 53.55, 9.99]. *)
Definition default_location : Q * Q := (53.55, 9.99).

(** Truth value of a number: [if f_lat:], [if irr_avg]. *)
Definition truthy (x : Q) : bool := negb (Qeq_bool x 0).

Section Location.

Variable geocode : string -> res (option (Q * Q)).

(** Lines 98-101: the coordinates the calculation uses. *)
Definition location (i : inputs) : res (Q * Q) :=
  match addr i with
  | EmptyString => Ok default_location
  | _ =>
      f <- Helpers.get_coordinates geocode (addr i) ;;
      match f with
      | Some (f_lat, f_lon) =>
          if truthy f_lat then Ok (f_lat, f_lon) else Ok default_location
      | None => Ok default_location
      end
  end.

End Location.

(* =================================================================== *)
(** ** 3. Calculation                                                  *)
(* =================================================================== *)

(** [years = range(1, 21)] *)
Definition years : list nat := seq 1 20.

Section Projection.

Variable i : inputs.
Variable start_yield : Q.

(** A. average expected case, year [y]. *)
Definition prod_a (y : nat) : Q := start_yield * pow (1 - degr_avg i) (y - 1).
Definition p_ind_a (y : nat) : Q := p_industry i * pow (1 + infl_avg i) (y - 1).
Definition p_mark_a (y : nat) : Q := p_market i * pow (1 + infl_avg i) (y - 1).
Definition rev_a (y : nat) : Q :=
  (prod_a y * self_use i * p_ind_a y)
  + (prod_a y * (1 - self_use i) * p_mark_a y).
Definition cost_a (y : nat) : Q := opex_fix i * pow (1 + infl_avg i) (y - 1).
Definition cf_a (y : nat) : Q := rev_a y - cost_a y.

(** B. worst case, year [y]. *)
Definition prod_w (y : nat) : Q := start_yield * pow (1 - degr_worst i) (y - 1).
Definition p_mark_w (y : nat) : Q := p_market i * pow (1 - merit_drop i) (y - 1).
Definition rev_w (y : nat) : Q :=
  (prod_w y * self_use i * p_industry i)
  + (prod_w y * (1 - self_use i) * p_mark_w y).
Definition cost_w (y : nat) : Q := opex_fix i * pow (1 + infl_avg i) (y - 1).
Definition invest_fix (y : nat) : Q :=
  if Nat.eqb y (inv_year i) then inv_cost i else 0.
Definition cf_w (y : nat) : Q := rev_w y - cost_w y - invest_fix y.

(** The variables the [for y in years] loop updates. *)
Record loop_state : Type := {
  res_avg : list Q;
  res_worst : list Q;
  flows_avg : list Q;
  flows_worst : list Q;
  cum_avg : Q;
  cum_worst : Q
}.

Definition loop_init : loop_state := {|
  res_avg := [];
  res_worst := [];
  flows_avg := [- capex i];
  flows_worst := [- capex i];
  cum_avg := - capex i;
  cum_worst := - capex i
|}.

Definition loop_body (st : loop_state) (y : nat) : loop_state :=
  let cum_a := cum_avg st + cf_a y in
  let cum_w := cum_worst st + cf_w y in
  {| res_avg := res_avg st ++ [cum_a];
     res_worst := res_worst st ++ [cum_w];
     flows_avg := flows_avg st ++ [cf_a y];
     flows_worst := flows_worst st ++ [cf_w y];
     cum_avg := cum_a;
     cum_worst := cum_w |}.

(** The state after the last year, with every power taken exactly. *)
Definition run_loop : loop_state := fold_left loop_body years loop_init.

(** One pass through the body of [for y in years] (lines 166-191), each
    [**] in the order of the source: the first power that is out of range
    raises [OverflowError], and nothing in the loop catches it. *)
Definition year_body (st : loop_state) (y : nat) : res loop_state :=
  d_a <- power (1 - degr_avg i) (y - 1) ;;
  let prod_a := start_yield * d_a in
  e_ind <- power (1 + infl_avg i) (y - 1) ;;
  let p_ind_a := p_industry i * e_ind in
  e_mark <- power (1 + infl_avg i) (y - 1) ;;
  let p_mark_a := p_market i * e_mark in
  let rev_a :=
    (prod_a * self_use i * p_ind_a) + (prod_a * (1 - self_use i) * p_mark_a) in
  e_cost <- power (1 + infl_avg i) (y - 1) ;;
  let cost_a := opex_fix i * e_cost in
  let cf_a := rev_a - cost_a in
  let cum_a := cum_avg st + cf_a in
  d_w <- power (1 - degr_worst i) (y - 1) ;;
  let prod_w := start_yield * d_w in
  m_w <- power (1 - merit_drop i) (y - 1) ;;
  let p_mark_w := p_market i * m_w in
  let rev_w :=
    (prod_w * self_use i * p_industry i)
    + (prod_w * (1 - self_use i) * p_mark_w) in
  e_cost_w <- power (1 + infl_avg i) (y - 1) ;;
  let cost_w := opex_fix i * e_cost_w in
  let invest_fix := if Nat.eqb y (inv_year i) then inv_cost i else 0 in
  let cf_w := rev_w - cost_w - invest_fix in
  let cum_w := cum_worst st + cf_w in
  Ok {| res_avg := res_avg st ++ [cum_a];
        res_worst := res_worst st ++ [cum_w];
        flows_avg := flows_avg st ++ [cf_a];
        flows_worst := flows_worst st ++ [cf_w];
        cum_avg := cum_a;
        cum_worst := cum_w |}.

Fixpoint for_years (ys : list nat) (st : loop_state) : res loop_state :=
  match ys with
  | [] => Ok st
  | y :: t => st' <- year_body st y ;; for_years t st'
  end.

(** Lines 157-191 as they run. *)
Definition yearly_loop : res loop_state := for_years years loop_init.

(** The four powers of year [y] are in range. *)
Definition year_in_range (y : nat) : bool :=
  in_range (pow (1 - degr_avg i) (y - 1))
  && in_range (pow (1 + infl_avg i) (y - 1))
  && in_range (pow (1 - degr_worst i) (y - 1))
  && in_range (pow (1 - merit_drop i) (y - 1)).

Definition powers_in_range : bool := forallb year_in_range years.

(** None of the four powers of year [y] underflows. *)
Definition year_exact (y : nat) : bool :=
  negb (vanishing (pow (1 - degr_avg i) (y - 1)))
  && negb (vanishing (pow (1 + infl_avg i) (y - 1)))
  && negb (vanishing (pow (1 - degr_worst i) (y - 1)))
  && negb (vanishing (pow (1 - merit_drop i) (y - 1))).

Definition powers_exact : bool := forallb year_exact years.

(** What one pass appends once the two net flows of the year are known. *)
Definition extend (st : loop_state) (a w : Q) : loop_state :=
  {| res_avg := res_avg st ++ [cum_avg st + a];
     res_worst := res_worst st ++ [cum_worst st + w];
     flows_avg := flows_avg st ++ [a];
     flows_worst := flows_worst st ++ [w];
     cum_avg := cum_avg st + a;
     cum_worst := cum_worst st + w |}.

(** The two net flows of year [y] as [year_body] computes them when it
    does not raise: [cf_a] and [cf_w] with each power as the float it is. *)
Definition cf_a_float (y : nat) : Q :=
  let d_a := rounded (pow (1 - degr_avg i) (y - 1)) in
  let e := rounded (pow (1 + infl_avg i) (y - 1)) in
  let prod_a := start_yield * d_a in
  (prod_a * self_use i * (p_industry i * e))
  + (prod_a * (1 - self_use i) * (p_market i * e))
  - opex_fix i * e.

Definition cf_w_float (y : nat) : Q :=
  let d_w := rounded (pow (1 - degr_worst i) (y - 1)) in
  let m_w := rounded (pow (1 - merit_drop i) (y - 1)) in
  let e := rounded (pow (1 + infl_avg i) (y - 1)) in
  let prod_w := start_yield * d_w in
  (prod_w * self_use i * p_industry i)
  + (prod_w * (1 - self_use i) * (p_market i * m_w))
  - opex_fix i * e
  - (if Nat.eqb y (inv_year i) then inv_cost i else 0).

(** The state after the last year when no power is out of range. *)
Definition run_loop_float : loop_state :=
  fold_left (fun st y => extend st (cf_a_float y) (cf_w_float y))
            years loop_init.

End Projection.

(** [sum([cf / ((1 + wacc)**i) for i, cf in enumerate(flows)])] *)
Definition npv (flows : list Q) (rate : Q) : res Q :=
  terms <- Irr.npv_terms flows rate ;; Ok (sum terms).

(** Lines 196-200: both values are computed inside one [try]; the bare
    [except] sets both to [0]. *)
Definition npv_pair (flows_a flows_w : list Q) (rate : Q) : res (Q * Q) :=
  try_except
    (npv_avg <- npv flows_a rate ;;
     npv_worst <- npv flows_w rate ;;
     Ok (npv_avg, npv_worst))
    (Ok (0, 0)).

(** How the IRR metric is rendered: [f"{format_de(irr_avg*100,2)}%"] or
    ["n/a"].  The formatter itself is outside the engine; [Percent x]
    stands for the formatted number [x] followed by [%]. *)
Inductive irr_rendering : Type :=
| Percent (x : Q)
| NotAvailable.

(** [... if irr_avg else "n/a"] *)
Definition irr_display (irr_avg : option Q) : irr_rendering :=
  match irr_avg with
  | Some r => if truthy r then Percent (r * 100) else NotAvailable
  | None => NotAvailable
  end.

(** The payback metric: an index, or the string [">20"]. *)
Inductive payback : Type :=
| Year (n : nat)
| BeyondHorizon.

(** [next((i for i, x in enumerate(res) if x >= 0), ">20")] *)
Fixpoint first_nonneg (l : list (nat * Q)) : payback :=
  match l with
  | [] => BeyondHorizon
  | (n, x) :: t => if geb x 0 then Year n else first_nonneg t
  end.

Definition payback_of (res : list Q) : payback := first_nonneg (enumerate res).

(** Everything the calculation block derives before rendering. *)
Record outcome : Type := {
  out_flows_avg : list Q;
  out_flows_worst : list Q;
  out_res_avg : list Q;
  out_res_worst : list Q;
  npv_avg : Q;
  npv_worst : Q;
  irr_avg : option Q;
  irr_shown : irr_rendering;
  payback_avg : payback;
  payback_worst : payback
}.

(** The body of [if start_yield is not None:]. *)
Definition compute (i : inputs) (start_yield : Q) : res outcome :=
  st <- yearly_loop i start_yield ;;
  npvs <- npv_pair (flows_avg st) (flows_worst st) (wacc i) ;;
  irr <- Irr.calculate_irr_default (flows_avg st) ;;
  Ok {| out_flows_avg := flows_avg st;
        out_flows_worst := flows_worst st;
        out_res_avg := res_avg st;
        out_res_worst := res_worst st;
        npv_avg := fst npvs;
        npv_worst := snd npvs;
        irr_avg := irr;
        irr_shown := irr_display irr;
        payback_avg := payback_of (res_avg st);
        payback_worst := payback_of (res_worst st) |}.

Section Run.

Variable geocode : string -> res (option (Q * Q)).
Variable pvgis_request : Q -> Q -> Q -> Z -> Z -> Q -> res Q.

(** Line 154. *)
Definition start_yield (i : inputs) (lat lon : Q) : res (option Q) :=
  if ltb 0 (kwp i)
  then Helpers.get_pvgis_data pvgis_request lat lon (kwp i) (angle i) (aspect i)
  else Ok (Some 0).

(** One press of the button: [None] when the block under
    [if start_yield is not None] is not entered. *)
Definition calculate (i : inputs) : res (option outcome) :=
  loc <- location geocode i ;;
  let '(lat, lon) := loc in
  sy <- start_yield i lat lon ;;
  match sy with
  | Some y => o <- compute i y ;; Ok (Some o)
  | None => Ok None
  end.

End Run.

End Engine.

(* ===================================================================== *)
(** ** [parse_de_number]                                                 *)
(* ===================================================================== *)

Module Parser.

(** The argument of [parse_de_number], by the dynamic type the function
    dispatches on.  [bool] is a subclass of [int]; everything that is
    neither a number nor a [str] is [VOther]. *)
Inductive value : Type :=
| VBool (b : bool)
| VInt (n : Z)
| VFloat (f : spec_float)
| VStr (s : string)
| VOther.

(** binary64 *)
Definition prec : Z := 53.
Definition emax : Z := 1024.

(** [float(n)] for an [int]: the nearest binary64 value (ties to even), and
    [OverflowError] ("int too large to convert to float") when that is not
    finite. *)
Definition float_of_int (n : Z) : res spec_float :=
  match binary_normalize prec emax n 0 false with
  | S754_infinity _ => Raise OverflowError
  | f => Ok f
  end.

Definition comma : ascii := ","%char.
Definition dot : ascii := "."%char.

(** [s.replace(",", ".")] *)
Fixpoint replace_comma (s : string) : string :=
  match s with
  | EmptyString => EmptyString
  | String c t =>
      String (if Ascii.eqb c comma then dot else c) (replace_comma t)
  end.

Section Parse.

(** The built-in [float(s)] for a [str]: the parsed number, or [ValueError]. *)
Variable float_of_str : string -> res spec_float.

Definition parse_de_number (v : value) : res (option spec_float) :=
  match v with
  | VBool b => f <- float_of_int (if b then 1%Z else 0%Z) ;; Ok (Some f)
  | VInt n => f <- float_of_int n ;; Ok (Some f)
  | VFloat f => Ok (Some f)
  | VStr s =>
      try_except (f <- float_of_str (replace_comma s) ;; Ok (Some f)) (Ok None)
  | VOther => Ok None
  end.

End Parse.

End Parser.

(* ===================================================================== *)
(** ** The specification's notions                                       *)
(* ===================================================================== *)

Module Spec.

(** Running sums [acc + x1, acc + x1 + x2, ...]. *)
Fixpoint running (acc : Q) (l : list Q) : list Q :=
  match l with
  | [] => []
  | x :: t => (acc + x) :: running (acc + x) t
  end.

(** The cumulative-balance sequence of a cash-flow series: its running sum,
    of the same length, index 0 being the outlay entry. *)
Definition cumulative_balance (series : list Q) : list Q :=
  match series with
  | [] => []
  | x :: t => x :: running x t
  end.

(** The payback year of the specification: the first index of the
    cumulative-balance sequence whose value is [>= 0]. *)
Definition payback_year (series : list Q) : Engine.payback :=
  Engine.payback_of (cumulative_balance series).

(** [f(r) = sum cf_i / (1+r)^i] and [f'(r) = sum -i * cf_i / (1+r)^(i+1)],
    as functions on the rationals ([x / 0] being [0]). *)
Definition NPV (series : list Q) (r : Q) : Q :=
  sum (map (fun '(i, cf) => cf / (1 + r) ^ Z.of_nat i) (enumerate series)).

Definition dNPV (series : list Q) (r : Q) : Q :=
  sum (map (fun '(i, cf) => - of_nat i * cf / (1 + r) ^ Z.of_nat (i + 1))
           (enumerate series)).

(** One Newton-Raphson step, and the sequence of estimates from a guess. *)
Definition newton (series : list Q) (r : Q) : Q :=
  r - NPV series r / dNPV series r.

Fixpoint estimate (series : list Q) (guess : Q) (k : nat) : Q :=
  match k with
  | O => guess
  | S k' => newton series (estimate series guess k')
  end.

(** The power [b ** n] is outside the float range: [**] raises
    [OverflowError]. *)
Definition overflows (b : Q) (n : nat) : Prop :=
  float_limit <= Qabs (b ^ Z.of_nat n).

(** The power [b ** n] is the float zero: it is zero or it underflows, and
    dividing by it raises [ZeroDivisionError]. *)
Definition vanishes (b : Q) (n : nat) : Prop :=
  Qabs (b ^ Z.of_nat n) <= float_tiny.

(** A term [cf / b ** n] raises. *)
Definition degenerate (b : Q) (n : nat) : Prop :=
  overflows b n \/ vanishes b n.

(** Evaluating the sums at [r] raises: [1 + r] is zero, or one of the
    powers [(1 + r) ** k] it divides by, [k] up to the length of the
    series, is outside the float range or is the float zero. *)
Definition domain_error (series : list Q) (r : Q) : Prop :=
  series <> [] /\
  (1 + r == 0
   \/ exists k, (k <= List.length series)%nat /\ degenerate (1 + r) k).

(** The derivative magnitude is below [1e-10] at [r]. *)
Definition flat (series : list Q) (r : Q) : Prop :=
  Qabs (dNPV series r) < 1e-10.

(** The next estimate is within [1e-7] of [r]. *)
Definition settled (series : list Q) (r : Q) : Prop :=
  Qabs (newton series r - r) < 1e-7.

(** The iteration at [r] neither fails nor converges. *)
Definition proceeds (series : list Q) (r : Q) : Prop :=
  ~ domain_error series r /\ ~ flat series r /\ ~ settled series r.

(** The solver's result is undefined, in the specification's words: within
    [n] iterations one hits a flat tangent or a domain error, or all [n]
    pass without convergence. *)
Definition undefined_within (n : nat) (series : list Q) (guess : Q) : Prop :=
  (exists k, (k < n)%nat
     /\ (forall j, (j < k)%nat -> proceeds series (estimate series guess j))
     /\ (domain_error series (estimate series guess k)
         \/ flat series (estimate series guess k)))
  \/ (forall j, (j < n)%nat -> proceeds series (estimate series guess j)).

(** [r] is the first estimate within [1e-7] of its predecessor, reached
    within [n] iterations none of which failed. *)
Definition converges_within (n : nat) (series : list Q) (guess r : Q) : Prop :=
  exists k, (k < n)%nat
    /\ (forall j, (j < k)%nat -> proceeds series (estimate series guess j))
    /\ ~ domain_error series (estimate series guess k)
    /\ ~ flat series (estimate series guess k)
    /\ settled series (estimate series guess k)
    /\ r = estimate series guess (S k).

End Spec.

(* ===================================================================== *)
(** ** Concrete inputs                                                   *)
(* ===================================================================== *)

Module Cases.

Import Engine.

(** The widget defaults of [code.py] (the address shortened to ASCII). *)
Definition defaults : inputs := {|
  addr := "Hamburg";
  angle := 35;
  aspect := 0;
  area := 500;
  invest_type := PerKwp 1100;
  opex_input := 1;
  self_use_input := 40;
  p_industry_input := 28;
  p_market_input := 8;
  wacc_input := 6;
  degr_avg_input := 0.5;
  degr_worst_input := 1;
  infl_avg_input := 2;
  merit_drop_input := 1;
  inv_cost := 2000;
  inv_year := 10
|}.

(** A plant of 100 (total invest) that earns a flat 40 per unit of yield and
    year: everything self-consumed at 100 ct/kWh, no OPEX, no degradation,
    no inflation, no replacement cost. *)
Definition flat40 : inputs := {|
  addr := "";
  angle := 35;
  aspect := 0;
  area := 500;
  invest_type := Total 100;
  opex_input := 0;
  self_use_input := 100;
  p_industry_input := 100;
  p_market_input := 8;
  wacc_input := 6;
  degr_avg_input := 0;
  degr_worst_input := 0;
  infl_avg_input := 0;
  merit_drop_input := 0;
  inv_cost := 0;
  inv_year := 10
|}.


(** [opex1000] with the cost of capital set to -100 %. *)
Definition rate_minus_one : inputs := {|
  addr := "";
  angle := 35;
  aspect := 0;
  area := 500;
  invest_type := Total 100000;
  opex_input := 1;
  self_use_input := 40;
  p_industry_input := 28;
  p_market_input := 8;
  wacc_input := -100;
  degr_avg_input := 0.5;
  degr_worst_input := 1;
  infl_avg_input := 2;
  merit_drop_input := 1;
  inv_cost := 2000;
  inv_year := 10
|}.

(** Lookups that fail, and a yield service that answers 40 kWh. *)
Definition geocode_down : string -> res (option (Q * Q)) :=
  fun _ => Raise LookupFailure.
Definition geocode_nothing : string -> res (option (Q * Q)) :=
  fun _ => Ok None.
Definition pvgis_down : Q -> Q -> Q -> Z -> Z -> Q -> res Q :=
  fun _ _ _ _ _ _ => Raise LookupFailure.
Definition pvgis_40 : Q -> Q -> Q -> Z -> Z -> Q -> res Q :=
  fun _ _ _ _ _ _ => Ok 40.

(** Two cash flows of about 2^60 whose sum is 2^36. *)
Definition big_flows : list Q :=
  [- (inject_Z (2 ^ 60) - inject_Z (2 ^ 36)); inject_Z (2 ^ 60)].


(** [opex1000] with the cost of capital set to 1e18 %, a rate of 1e16. *)
Definition rate_huge : inputs := {|
  addr := "";
  angle := 35;
  aspect := 0;
  area := 500;
  invest_type := Total 100000;
  opex_input := 1;
  self_use_input := 40;
  p_industry_input := 28;
  p_market_input := 8;
  wacc_input := inject_Z (10 ^ 18);
  degr_avg_input := 0.5;
  degr_worst_input := 1;
  infl_avg_input := 2;
  merit_drop_input := 1;
  inv_cost := 2000;
  inv_year := 10
|}.


End Cases.

(* ===================================================================== *)
(** ** [format_de] and the performance report                            *)
(* ===================================================================== *)

Module Format.

(** [s.replace(a, b)] for one-character [a] and [b]. *)
Fixpoint replace_char (a b : ascii) (s : string) : string :=
  match s with
  | EmptyString => EmptyString
  | String c t => String (if Ascii.eqb c a then b else c) (replace_char a b t)
  end.

(** [s.replace(",", "X").replace(".", ",").replace("X", ".")] *)
Definition swap_separators (s : string) : string :=
  replace_char "X" "." (replace_char "." "," (replace_char "," "X" s)).

(** Truth value of the [currency] argument: [None] and [""] are false. *)
Definition currency_given (currency : option string) : option string :=
  match currency with
  | Some EmptyString => None
  | Some c => Some c
  | None => None
  end.

Section FormatDe.

(** [f"{num:,.{decimals}f}"], the built-in fixed-point formatting with
    [','] between thousands and ['.'] before the decimals, and
    [str(number)], are parameters. *)
Variable fixed_point : Q -> nat -> res string.
Variable str_of : option Q -> string.

(** [format_de(number, decimals, currency)]; [number] is [None] or a
    number. *)
Definition format_de (number : option Q) (decimals : nat)
    (currency : option string) : res string :=
  try_except
    (match number with
     | None =>
         match currency_given currency with
         | None => Ok "n/a"%string
         | Some c => Ok ("n/a " ++ c)%string
         end
     | Some num =>
         s <- fixed_point num decimals ;;
         let s := swap_separators s in
         match currency_given currency with
         | Some c => Ok (s ++ " " ++ c)%string
         | None => Ok s
         end
     end)
    (Ok (str_of number)).

End FormatDe.

(** The exchange of the two separators, character by character. *)
Definition swap_char (c : ascii) : ascii :=
  if Ascii.eqb c "," then "."%char
  else if Ascii.eqb c "." then ","%char
  else c.

Fixpoint map_string (f : ascii -> ascii) (s : string) : string :=
  match s with
  | EmptyString => EmptyString
  | String c t => String (f c) (map_string f t)
  end.

(** [c in s] *)
Fixpoint occurs (c : ascii) (s : string) : bool :=
  match s with
  | EmptyString => false
  | String d t => Ascii.eqb d c || occurs c t
  end.

End Format.

Module Report.

(** [delta_val]: the label under the average-case NPV. *)
Inductive label : Type :=
| Profitabel
| Verlustgeschaeft.

(** ["Profitabel" if npv_avg > 0 else "Verlustgeschäft"] *)
Definition delta_val (npv_avg : Q) : label :=
  if ltb 0 npv_avg then Profitabel else Verlustgeschaeft.

(** The closing note: [st.warning], [st.success] or nothing. *)
Inductive note : Type :=
| RiskHinweis
| StrongBuy
| NoNote.

(** Lines 234-237. *)
Definition closing_note (npv_avg npv_worst : Q) : note :=
  if ltb 0 npv_avg && ltb npv_worst 0 then RiskHinweis
  else if ltb 0 npv_worst then StrongBuy
  else NoNote.

End Report.

Module Ranges.

Import Engine.

(** Parameter values in their meaningful ranges: a non-negative yield,
    fractions between 0 and 1, non-negative prices, inflation and
    replacement cost, and a worst-case degradation that is not below the
    expected one. *)
Definition plausible (i : inputs) (start_yield : Q) : Prop :=
  0 <= start_yield
  /\ 0 <= self_use i /\ self_use i <= 1
  /\ 0 <= p_industry i
  /\ 0 <= p_market i
  /\ 0 <= degr_avg i /\ degr_avg i <= degr_worst i /\ degr_worst i <= 1
  /\ 0 <= infl_avg i
  /\ 0 <= merit_drop i /\ merit_drop i <= 1
  /\ 0 <= inv_cost i.

End Ranges.

Module Scenarios.

Import Engine.

(** The widget defaults with the cost of capital set to 0 %. *)
Definition zero_rate : inputs := {|
  addr := "";
  angle := 35;
  aspect := 0;
  area := 500;
  invest_type := PerKwp 1100;
  opex_input := 1;
  self_use_input := 40;
  p_industry_input := 28;
  p_market_input := 8;
  wacc_input := 0;
  degr_avg_input := 0.5;
  degr_worst_input := 1;
  infl_avg_input := 2;
  merit_drop_input := 1;
  inv_cost := 2000;
  inv_year := 10
|}.

End Scenarios.

(* ===================================================================== *)
(** ** The yearly loop in closed form                                    *)
(* ===================================================================== *)

Section LoopFacts.

Import Engine.

Section Folds.

Variables fa fw : nat -> Q.

Let body := fun st y => extend st (fa y) (fw y).

Lemma fold_flows_avg (ys : list nat) (st : loop_state) :
  flows_avg (fold_left body ys st) = flows_avg st ++ map fa ys.
Proof.
  revert st; induction ys as [|y ys IH]; intros st; simpl.
  - now rewrite app_nil_r.
  - rewrite IH; simpl. now rewrite <- app_assoc.
Qed.

Lemma fold_flows_worst (ys : list nat) (st : loop_state) :
  flows_worst (fold_left body ys st) = flows_worst st ++ map fw ys.
Proof.
  revert st; induction ys as [|y ys IH]; intros st; simpl.
  - now rewrite app_nil_r.
  - rewrite IH; simpl. now rewrite <- app_assoc.
Qed.

Lemma fold_res_avg (ys : list nat) (st : loop_state) :
  res_avg (fold_left body ys st)
  = res_avg st ++ Spec.running (cum_avg st) (map fa ys).
Proof.
  revert st; induction ys as [|y ys IH]; intros st; simpl.
  - now rewrite app_nil_r.
  - rewrite IH; simpl. now rewrite <- app_assoc.
Qed.

Lemma fold_res_worst (ys : list nat) (st : loop_state) :
  res_worst (fold_left body ys st)
  = res_worst st ++ Spec.running (cum_worst st) (map fw ys).
Proof.
  revert st; induction ys as [|y ys IH]; intros st; simpl.
  - now rewrite app_nil_r.
  - rewrite IH; simpl. now rewrite <- app_assoc.
Qed.

End Folds.

Variable i : inputs.
Variable sy : Q.

Lemma run_loop_fold :
  run_loop i sy
  = fold_left (fun st y => extend st (cf_a i sy y) (cf_w i sy y))
              years (loop_init i).
Proof. reflexivity. Qed.

Lemma flows_avg_closed :
  flows_avg (run_loop i sy) = - capex i :: map (cf_a i sy) years.
Proof. rewrite run_loop_fold. now rewrite fold_flows_avg. Qed.

Lemma flows_worst_closed :
  flows_worst (run_loop i sy) = - capex i :: map (cf_w i sy) years.
Proof. rewrite run_loop_fold. now rewrite fold_flows_worst. Qed.

Lemma res_avg_closed :
  res_avg (run_loop i sy)
  = Spec.running (- capex i) (map (cf_a i sy) years).
Proof. rewrite run_loop_fold. now rewrite fold_res_avg. Qed.

Lemma res_worst_closed :
  res_worst (run_loop i sy)
  = Spec.running (- capex i) (map (cf_w i sy) years).
Proof. rewrite run_loop_fold. now rewrite fold_res_worst. Qed.

(** The same closed forms for the loop on floats. *)
Lemma flows_avg_float_closed :
  flows_avg (run_loop_float i sy) = - capex i :: map (cf_a_float i sy) years.
Proof. unfold run_loop_float. now rewrite fold_flows_avg. Qed.

Lemma flows_worst_float_closed :
  flows_worst (run_loop_float i sy)
  = - capex i :: map (cf_w_float i sy) years.
Proof. unfold run_loop_float. now rewrite fold_flows_worst. Qed.

Lemma res_avg_float_closed :
  res_avg (run_loop_float i sy)
  = Spec.running (- capex i) (map (cf_a_float i sy) years).
Proof. unfold run_loop_float. now rewrite fold_res_avg. Qed.

Lemma res_worst_float_closed :
  res_worst (run_loop_float i sy)
  = Spec.running (- capex i) (map (cf_w_float i sy) years).
Proof. unfold run_loop_float. now rewrite fold_res_worst. Qed.

Lemma nth_year (f : nat -> Q) (c : Q) (y : nat) :
  (1 <= y <= 20)%nat -> nth y (c :: map f years) 0 = f y.
Proof.
  intros [H1 H20]. destruct y as [|y]; [lia|].
  change (nth (S y) (c :: map f years) 0) with (nth y (map f years) 0).
  rewrite nth_indep with (d' := f 0%nat)
    by (rewrite length_map; unfold years; rewrite length_seq; lia).
  rewrite map_nth. unfold years. rewrite seq_nth by lia. reflexivity.
Qed.

(** The code keeps the cumulative balances of the years 1..20 only: the
    list the payback is looked up in is the cumulative-balance sequence of
    the series without its index-0 entry. *)
Lemma res_avg_is_tail :
  res_avg (run_loop i sy)
  = tl (Spec.cumulative_balance (flows_avg (run_loop i sy))).
Proof. rewrite res_avg_closed, flows_avg_closed. reflexivity. Qed.

Lemma res_worst_is_tail :
  res_worst (run_loop i sy)
  = tl (Spec.cumulative_balance (flows_worst (run_loop i sy))).
Proof. rewrite res_worst_closed, flows_worst_closed. reflexivity. Qed.

End LoopFacts.

(** C7.  For every year [y] in 1..20 the worst-case net flow is the revenue
    at the constant avoided-cost price and at the export price decayed by
    [(1 - merit_drop)^(y-1)], minus the OPEX escalated by
    [(1 + inflation)^(y-1)], minus the replacement cost when [y] is the
    replacement year; the average-case net flow subtracts the same escalated
    OPEX from its revenue and no replacement cost. *)
Theorem worst_case_year (i : Engine.inputs) (sy : Q) (y : nat) :
  (1 <= y <= 20)%nat ->
  let e := Z.of_nat (y - 1) in
  let prod_w := sy * (1 - Engine.degr_worst i) ^ e in
  let prod_a := sy * (1 - Engine.degr_avg i) ^ e in
  let opex := Engine.opex_fix i * (1 + Engine.infl_avg i) ^ e in
  nth y (Engine.flows_worst (Engine.run_loop i sy)) 0
  = prod_w * Engine.self_use i * Engine.p_industry i
    + prod_w * (1 - Engine.self_use i)
      * (Engine.p_market i * (1 - Engine.merit_drop i) ^ e)
    - opex
    - (if Nat.eqb y (Engine.inv_year i) then Engine.inv_cost i else 0)
  /\ nth y (Engine.flows_avg (Engine.run_loop i sy)) 0
     = Engine.rev_a i sy y - opex
  /\ Engine.rev_a i sy y
     = prod_a * Engine.self_use i
         * (Engine.p_industry i * (1 + Engine.infl_avg i) ^ e)
       + prod_a * (1 - Engine.self_use i)
         * (Engine.p_market i * (1 + Engine.infl_avg i) ^ e).
Proof.
  intros Hy; cbv zeta.
  rewrite flows_worst_closed, flows_avg_closed, !nth_year by exact Hy.
  repeat split.
Qed.

Lemma worst_case_year_witness :
  (1 <= 10 <= 20)%nat
  /\ nth 10 (Engine.flows_worst (Engine.run_loop Cases.defaults 400000)) 0
     = 400000 * (1 - Engine.degr_worst Cases.defaults) ^ 9
         * Engine.self_use Cases.defaults * Engine.p_industry Cases.defaults
       + 400000 * (1 - Engine.degr_worst Cases.defaults) ^ 9
         * (1 - Engine.self_use Cases.defaults)
         * (Engine.p_market Cases.defaults
            * (1 - Engine.merit_drop Cases.defaults) ^ 9)
       - Engine.opex_fix Cases.defaults
         * (1 + Engine.infl_avg Cases.defaults) ^ 9
       - 2000.
Proof.
  split; [lia|].
  exact (proj1 (worst_case_year Cases.defaults 400000 10 ltac:(lia))).
Defined.

(* ===================================================================== *)
(** ** The IRR solver against the Newton-Raphson iteration               *)
(* ===================================================================== *)

Ltac conjs := repeat match goal with |- _ /\ _ => split end.

Section Comparisons.

Lemma ltb_lt (a b : Q) : ltb a b = true <-> a < b.
Proof.
  unfold ltb. rewrite negb_true_iff. split.
  - intros H. apply Qnot_le_lt. intros Hle.
    apply Qle_bool_iff in Hle. congruence.
  - intros H. destruct (Qle_bool b a) eqn:E; [|reflexivity].
    apply Qle_bool_iff in E. exfalso. exact (Qlt_not_le _ _ H E).
Qed.

Lemma ltb_ge (a b : Q) : ltb a b = false <-> b <= a.
Proof.
  unfold ltb. rewrite negb_false_iff. apply Qle_bool_iff.
Qed.

Lemma Qeq_bool_false (a b : Q) : ~ a == b -> Qeq_bool a b = false.
Proof.
  intros H. destruct (Qeq_bool a b) eqn:E; [|reflexivity].
  apply Qeq_bool_eq in E. contradiction.
Qed.

Lemma div_ok (a b : Q) : ~ b == 0 -> div a b = Ok (a / b).
Proof. intros H. unfold div. now rewrite Qeq_bool_false. Qed.

Lemma div_zero (a b : Q) : b == 0 -> div a b = Raise ZeroDivisionError.
Proof. intros H. unfold div. now rewrite (Qeq_eq_bool _ _ H). Qed.

Lemma comprehension_ok {A B} (f : A -> res B) (g : A -> B) (l : list A) :
  (forall x, In x l -> f x = Ok (g x)) -> comprehension f l = Ok (map g l).
Proof.
  induction l as [|x t IH]; intros H; simpl; [reflexivity|].
  rewrite (H x (or_introl eq_refl)); simpl.
  rewrite IH by (intros z Hz; apply H; now right). reflexivity.
Qed.

Lemma comprehension_raise {A B} (f : A -> res B) (l : list A) (x : A) :
  In x l -> (exists e, f x = Raise e) ->
  exists e, comprehension f l = Raise e.
Proof.
  induction l as [|y t IH]; intros Hin Hx; [contradiction|].
  cbn [comprehension]. destruct Hin as [->|Hin].
  - destruct Hx as [e ->]. now exists e.
  - destruct (f y) as [v|e]; cbn [bind]; [|now exists e].
    destruct (IH Hin Hx) as [e ->]. now exists e.
Qed.

Lemma enumerate_from_In {A} (l : list A) :
  forall k i x, In (i, x) (enumerate_from k l) ->
                (k <= i < k + List.length l)%nat.
Proof.
  induction l as [|y t IH]; intros k i x H; [contradiction|].
  cbn [enumerate_from List.length] in *. destruct H as [H|H].
  - injection H as -> _. lia.
  - apply IH in H. lia.
Qed.

Lemma enumerate_from_nth {A} (l : list A) (d : A) :
  forall k j, (j < List.length l)%nat ->
              In ((k + j)%nat, nth j l d) (enumerate_from k l).
Proof.
  induction l as [|y t IH]; intros k j Hj; [simpl in Hj; lia|].
  cbn [enumerate_from]. destruct j as [|j].
  - left. f_equal. lia.
  - right. replace (k + S j)%nat with (S k + j)%nat by lia.
    apply IH. simpl in Hj. lia.
Qed.

Lemma in_range_lt (x : Q) : in_range x = true <-> Qabs x < float_limit.
Proof. unfold in_range. apply ltb_lt. Qed.

Lemma in_range_ge (x : Q) : in_range x = false <-> float_limit <= Qabs x.
Proof. unfold in_range. apply ltb_ge. Qed.

Lemma vanishing_le (x : Q) : vanishing x = true <-> Qabs x <= float_tiny.
Proof. unfold vanishing. apply Qle_bool_iff. Qed.

Lemma vanishing_gt (x : Q) : vanishing x = false <-> float_tiny < Qabs x.
Proof.
  unfold vanishing. split.
  - intros H. apply Qnot_le_lt. intros Hle.
    apply Qle_bool_iff in Hle. congruence.
  - intros H. destruct (Qle_bool (Qabs x) float_tiny) eqn:E; [|reflexivity].
    apply Qle_bool_iff in E. exfalso. exact (Qlt_not_le _ _ H E).
Qed.

Lemma tiny_pos : 0 < float_tiny.
Proof. reflexivity. Qed.

Lemma tiny_lt_one : float_tiny < 1.
Proof. reflexivity. Qed.

Lemma one_in_range : 1 < float_limit.
Proof. reflexivity. Qed.

Lemma rounded_exact (x : Q) : vanishing x = false -> rounded x = x.
Proof. intros H. unfold rounded. now rewrite H. Qed.

Lemma rounded_zero (x : Q) : vanishing x = true -> rounded x = 0.
Proof. intros H. unfold rounded. now rewrite H. Qed.

Lemma rounded_ge_one (x : Q) : 1 <= x -> rounded x = x.
Proof.
  intros H. apply rounded_exact, vanishing_gt.
  rewrite Qabs_pos by (eapply Qle_trans; [|exact H]; discriminate).
  eapply Qlt_le_trans; [exact tiny_lt_one|exact H].
Qed.

(** Rounding keeps the order of non-negative values. *)
Lemma rounded_mono (a b : Q) :
  0 <= a -> a <= b -> 0 <= rounded a /\ rounded a <= rounded b.
Proof.
  intros Ha Hab. assert (Hb : 0 <= b) by (eapply Qle_trans; eassumption).
  unfold rounded.
  destruct (vanishing a) eqn:Ea, (vanishing b) eqn:Eb.
  - split; apply Qle_refl.
  - split; [apply Qle_refl|exact Hb].
  - exfalso. apply vanishing_gt in Ea. apply vanishing_le in Eb.
    rewrite Qabs_pos in Ea, Eb by assumption.
    apply (Qlt_irrefl float_tiny). eapply Qlt_le_trans; [exact Ea|].
    eapply Qle_trans; eassumption.
  - split; assumption.
Qed.

Lemma rounded_le (x : Q) : 0 <= x -> rounded x <= x.
Proof.
  intros H. unfold rounded. destruct (vanishing x); [exact H|apply Qle_refl].
Qed.

Lemma power_ok (b : Q) (n : nat) :
  ~ Spec.degenerate b n -> power b n = Ok (pow b n).
Proof.
  intros H. unfold power. destruct (in_range (pow b n)) eqn:E.
  - rewrite rounded_exact; [reflexivity|].
    destruct (vanishing (pow b n)) eqn:Ev; [|reflexivity].
    apply vanishing_le in Ev. exfalso. apply H. now right.
  - apply in_range_ge in E. exfalso. apply H. now left.
Qed.

Lemma power_raise (b : Q) (n : nat) :
  Spec.overflows b n -> power b n = Raise OverflowError.
Proof.
  intros H. unfold power.
  now rewrite (proj2 (in_range_ge (pow b n)) H).
Qed.

(** A power that the float range holds and that is not the float zero can
    be divided by. *)
Lemma term_ok (b cf : Q) (n : nat) :
  ~ Spec.degenerate b n ->
  (d <- power b n ;; div cf d) = Ok (cf / b ^ Z.of_nat n).
Proof.
  intros H. rewrite (power_ok b n H). cbn [bind]. apply div_ok.
  intros H0. apply H. right. unfold Spec.vanishes. fold (pow b n).
  rewrite H0. discriminate.
Qed.

(** Any other power makes the term raise. *)
Lemma term_raise (b cf : Q) (n : nat) :
  Spec.degenerate b n ->
  (d <- power b n ;; div cf d) = Raise OverflowError
  \/ (d <- power b n ;; div cf d) = Raise ZeroDivisionError.
Proof.
  intros H. unfold power. destruct (in_range (pow b n)) eqn:E;
    cbn [bind]; [right|now left].
  destruct H as [H|H].
  - apply in_range_lt in E. exfalso. exact (Qlt_not_le _ _ E H).
  - rewrite (rounded_zero (pow b n) (proj2 (vanishing_le _) H)). reflexivity.
Qed.

Lemma degenerate_dec (b : Q) (n : nat) :
  {Spec.degenerate b n} + {~ Spec.degenerate b n}.
Proof.
  unfold Spec.degenerate, Spec.overflows, Spec.vanishes.
  destruct (Qlt_le_dec (Qabs (b ^ Z.of_nat n)) float_limit) as [Hlt|Hge];
    [|now left; left].
  destruct (Qlt_le_dec float_tiny (Qabs (b ^ Z.of_nat n))) as [Hgt|Hle];
    [|now left; right].
  right. intros [H|H].
  - exact (Qlt_not_le _ _ Hlt H).
  - exact (Qlt_not_le _ _ Hgt H).
Qed.

Lemma regular_one (b : Q) (n : nat) :
  b ^ Z.of_nat n == 1 -> ~ Spec.degenerate b n.
Proof.
  intros H [Ho|Hv].
  - unfold Spec.overflows in Ho. rewrite H in Ho.
    exact (Qlt_not_le _ _ one_in_range Ho).
  - unfold Spec.vanishes in Hv. rewrite H in Hv.
    exact (Qlt_not_le _ _ tiny_lt_one Hv).
Qed.

Lemma regular_exponent_zero (b : Q) : ~ Spec.degenerate b 0.
Proof. apply regular_one. reflexivity. Qed.

Lemma regular_base_one (b : Q) (n : nat) :
  b == 1 -> ~ Spec.degenerate b n.
Proof. intros H. apply regular_one. rewrite H. apply Qpower_1. Qed.

Lemma vanishes_base_zero (b : Q) (n : nat) :
  b == 0 -> Spec.vanishes b (S n) /\ ~ Spec.overflows b (S n).
Proof.
  intros H. unfold Spec.vanishes, Spec.overflows.
  rewrite H, Qpower_0 by lia. split; [discriminate|].
  intros Ho. now apply Ho.
Qed.

Lemma degenerate_upto_dec (b : Q) (n : nat) :
  {exists k, (k <= n)%nat /\ Spec.degenerate b k}
  + {forall k, (k <= n)%nat -> ~ Spec.degenerate b k}.
Proof.
  induction n as [|n [IH|IH]].
  - right. intros k Hk. replace k with 0%nat by lia.
    apply regular_exponent_zero.
  - left. destruct IH as (k & Hk & Ho). exists k. split; [lia|exact Ho].
  - destruct (degenerate_dec b (S n)) as [Hd|Hd].
    + left. exists (S n). split; [lia|exact Hd].
    + right. intros k Hk.
      destruct (Nat.eq_dec k (S n)) as [->|Hne]; [exact Hd|].
      apply IH. lia.
Qed.

End Comparisons.

Section SolverFacts.

Import Irr Spec.

Variable series : list Q.

Lemma npv_terms_ok (r : Q) :
  (forall k, (k < List.length series)%nat -> ~ degenerate (1 + r) k) ->
  npv_terms series r
  = Ok (map (fun '(i, cf) => cf / (1 + r) ^ Z.of_nat i) (enumerate series)).
Proof.
  intros Hr. apply comprehension_ok. intros [i cf] Hin.
  apply enumerate_from_In in Hin. apply term_ok. apply Hr. lia.
Qed.

Lemma derivative_terms_ok (r : Q) :
  (forall k, (k <= List.length series)%nat -> ~ degenerate (1 + r) k) ->
  derivative_terms series r
  = Ok (map (fun '(i, cf) => - of_nat i * cf / (1 + r) ^ Z.of_nat (i + 1))
            (enumerate series)).
Proof.
  intros Hr. apply comprehension_ok. intros [i cf] Hin.
  apply enumerate_from_In in Hin. apply term_ok. apply Hr. lia.
Qed.

Lemma derivative_terms_raise (r : Q) :
  domain_error series r -> exists e, derivative_terms series r = Raise e.
Proof.
  intros [Hne H].
  assert (Hk : exists j, (j < List.length series)%nat
                         /\ degenerate (1 + r) (S j)).
  { destruct H as [H0|(k & Hk & Hd)].
    - exists 0%nat. split.
      + destruct series; [congruence|simpl; lia].
      + right. exact (proj1 (vanishes_base_zero _ 0 H0)).
    - destruct k as [|j]; [now apply regular_exponent_zero in Hd|].
      exists j. split; [lia|exact Hd]. }
  destruct Hk as (j & Hj & Hd).
  apply (comprehension_raise _ _ (j, nth j series 0)).
  - apply (enumerate_from_nth series 0 0 j Hj).
  - replace (j + 1)%nat with (S j) by lia.
    destruct (term_raise (1 + r) (- of_nat j * nth j series 0) (S j) Hd)
      as [-> | ->]; now eexists.
Qed.

Lemma irr_body_raise (r : Q) :
  domain_error series r -> exists e, irr_body series r = Raise e.
Proof.
  intros H. unfold irr_body.
  destruct (npv_terms series r) as [terms|e]; cbn [bind]; [|now exists e].
  destruct (derivative_terms_raise r H) as [e ->]. now exists e.
Qed.

Lemma domain_error_dec (r : Q) :
  {domain_error series r} + {~ domain_error series r}.
Proof.
  unfold domain_error. destruct series as [|cf t].
  - right. intros [H _]. congruence.
  - destruct (Qeq_dec (1 + r) 0) as [E|E].
    + left. split; [discriminate|now left].
    + destruct (degenerate_upto_dec (1 + r) (List.length (cf :: t)))
        as [Ho|Ho].
      * left. split; [discriminate|now right].
      * right. intros [_ [H|(k & Hk & Hk')]]; [contradiction|].
        exact (Ho k Hk Hk').
Qed.

Lemma no_domain_error (r : Q) :
  series <> [] -> ~ domain_error series r ->
  ~ 1 + r == 0
  /\ forall k, (k <= List.length series)%nat -> ~ degenerate (1 + r) k.
Proof.
  intros Hne Hd. split.
  - intros H. apply Hd. split; [exact Hne|now left].
  - intros k Hk Ho. apply Hd. split; [exact Hne|]. right. now exists k.
Qed.

Lemma irr_body_ok (r : Q) :
  ~ domain_error series r ->
  irr_body series r
  = if ltb (Qabs (dNPV series r)) 1e-10 then Ok (Return None)
    else if ltb (Qabs (newton series r - r)) 1e-7
         then Ok (Return (Some (newton series r)))
         else Ok (Next (newton series r)).
Proof.
  intros Hd. destruct series as [|cf t] eqn:Es; [reflexivity|].
  rewrite <- Es in *.
  assert (Hne : series <> []) by (rewrite Es; discriminate).
  destruct (no_domain_error r Hne Hd) as [E Hr].
  unfold irr_body.
  rewrite (npv_terms_ok r (fun k Hk => Hr k (Nat.lt_le_incl _ _ Hk))),
    (derivative_terms_ok r Hr); cbn [bind].
  fold (NPV series r). fold (dNPV series r).
  destruct (ltb (Qabs (dNPV series r)) 1e-10) eqn:Ef; [reflexivity|].
  rewrite div_ok; [reflexivity|].
  intros H0. apply ltb_ge in Ef. rewrite H0 in Ef. vm_compute in Ef.
  now apply Ef.
Qed.

Lemma estimate_shift (g : Q) (k : nat) :
  estimate series g (S k) = estimate series (newton series g) k.
Proof. induction k as [|k IH]; [reflexivity|]. simpl in *. now rewrite IH. Qed.

Lemma undefined_shift (n : nat) (g : Q) :
  proceeds series g ->
  undefined_within (S n) series g
  <-> undefined_within n series (newton series g).
Proof.
  intros Hp. unfold undefined_within. split.
  - intros [(k & Hk & Hall & Hstop)|Hall].
    + destruct k as [|k].
      * exfalso. simpl in Hstop. destruct Hp as (Hp1 & Hp2 & _). tauto.
      * left. exists k. split; [lia|]. split.
        -- intros j Hj. rewrite <- estimate_shift. apply Hall. lia.
        -- now rewrite <- estimate_shift.
    + right. intros j Hj. rewrite <- estimate_shift. apply Hall. lia.
  - intros [(k & Hk & Hall & Hstop)|Hall].
    + left. exists (S k). split; [lia|]. split.
      * intros [|j] Hj; [exact Hp|]. rewrite estimate_shift. apply Hall. lia.
      * now rewrite estimate_shift.
    + right. intros [|j] Hj; [exact Hp|]. rewrite estimate_shift.
      apply Hall. lia.
Qed.

Lemma converges_shift (n : nat) (g r : Q) :
  proceeds series g ->
  converges_within (S n) series g r
  <-> converges_within n series (newton series g) r.
Proof.
  intros Hp. unfold converges_within. split.
  - intros (k & Hk & Hall & H1 & H2 & H3 & Hr).
    destruct k as [|k].
    + exfalso. simpl in H3. destruct Hp as (_ & _ & Hp3). tauto.
    + exists k. rewrite estimate_shift in H1, H2, H3.
      rewrite (estimate_shift g (S k)) in Hr.
      conjs; try assumption; [lia|].
      intros j Hj. rewrite <- estimate_shift. apply Hall. lia.
  - intros (k & Hk & Hall & H1 & H2 & H3 & Hr).
    exists (S k). rewrite <- estimate_shift in H1, H2, H3.
    rewrite <- (estimate_shift g (S k)) in Hr.
    conjs; try assumption; [lia|].
    intros [|j] Hj; [exact Hp|]. rewrite estimate_shift. apply Hall. lia.
Qed.

(** A first iteration that stops makes the result undefined, and excludes
    convergence. *)
Lemma stops_undefined (n : nat) (g : Q) :
  domain_error series g \/ flat series g ->
  undefined_within (S n) series g
  /\ forall r, ~ converges_within (S n) series g r.
Proof.
  intros Hs. split.
  - left. exists 0%nat. split; [lia|]. split; [intros j0 Hj0; lia|exact Hs].
  - intros r (k & Hk & Hall & H1 & H2 & _).
    destruct k as [|k].
    + simpl in H1, H2. tauto.
    + assert (Hp : proceeds series (estimate series g 0)) by (apply Hall; lia).
      destruct Hp as (Hp1 & Hp2 & _). simpl in Hp1, Hp2. tauto.
Qed.

(** A first iteration that converges. *)
Lemma settles_converges (n : nat) (g : Q) :
  ~ domain_error series g -> ~ flat series g -> settled series g ->
  ~ undefined_within (S n) series g
  /\ forall r, converges_within (S n) series g r <-> r = newton series g.
Proof.
  intros H1 H2 H3. split.
  - intros [(k & Hk & Hall & Hstop)|Hall].
    + destruct k as [|k].
      * simpl in Hstop. tauto.
      * assert (Hp : proceeds series (estimate series g 0))
          by (apply Hall; lia).
        destruct Hp as (_ & _ & Hp3). simpl in Hp3. tauto.
    + assert (Hp : proceeds series (estimate series g 0)) by (apply Hall; lia).
      destruct Hp as (_ & _ & Hp3). simpl in Hp3. tauto.
  - intros r. split.
    + intros (k & Hk & Hall & _ & _ & _ & Hr).
      destruct k as [|k]; [exact Hr|].
      assert (Hp : proceeds series (estimate series g 0)) by (apply Hall; lia).
      destruct Hp as (_ & _ & Hp3). simpl in Hp3. tauto.
    + intros ->. exists 0%nat.
      conjs; try assumption; try reflexivity; [lia|intros j0 Hj0; lia].
Qed.

(** The loop, for any number of iterations: it returns, and what it returns
    is what the iteration of the specification prescribes. *)
Lemma irr_loop_outcome (n : nat) :
  forall g, exists o,
    irr_loop n series g = Ok o
    /\ (o = None <-> undefined_within n series g)
    /\ (forall r, o = Some r <-> converges_within n series g r).
Proof.
  induction n as [|n IH]; intros g.
  - exists None. split; [reflexivity|]. split.
    + split; [intros _|reflexivity]. right. intros j Hj; lia.
    + intros r. split; [discriminate|]. intros (k & Hk & _). lia.
  - cbn [irr_loop]. destruct (domain_error_dec g) as [Hd|Hd].
    + destruct (irr_body_raise g Hd) as [e He]. rewrite He.
      cbn [bind try_except].
      destruct (stops_undefined n g (or_introl Hd)) as [Hu Hc].
      exists None. split; [reflexivity|]. split; [tauto|].
      intros r. split; [discriminate|]. intros H. now apply Hc in H.
    + rewrite (irr_body_ok g Hd).
      destruct (ltb (Qabs (dNPV series g)) 1e-10) eqn:Ef.
      * cbn [bind try_except]. apply ltb_lt in Ef.
        destruct (stops_undefined n g (or_intror Ef)) as [Hu Hc].
        exists None. split; [reflexivity|]. split; [tauto|].
        intros r. split; [discriminate|]. intros H. now apply Hc in H.
      * apply ltb_ge in Ef.
        assert (Hnf : ~ flat series g)
          by (unfold flat; intros H; exact (Qlt_not_le _ _ H Ef)).
        destruct (ltb (Qabs (newton series g - g)) 1e-7) eqn:Ec.
        -- cbn [bind try_except]. apply ltb_lt in Ec.
           destruct (settles_converges n g Hd Hnf Ec) as [Hu Hc].
           exists (Some (newton series g)). split; [reflexivity|]. split.
           ++ split; [discriminate|]. intros H. contradiction.
           ++ intros r. rewrite Hc. split; intros H; [now inversion H|now subst r].
        -- cbn [bind try_except]. apply ltb_ge in Ec.
           assert (Hp : proceeds series g).
           { unfold proceeds; conjs; try assumption.
             unfold settled. intros H. exact (Qlt_not_le _ _ H Ec). }
           destruct (IH (newton series g)) as (o & Ho & Hnone & Hsome).
           exists o. split; [exact Ho|]. split.
           ++ now rewrite (undefined_shift n g Hp).
           ++ intros r. now rewrite (converges_shift n g r Hp).
Qed.

End SolverFacts.


(** The value the solver returns is one Newton step away from an estimate
    at which the sums were evaluated without error. *)
Lemma calculate_irr_last_step (series : list Q) (guess r : Q) :
  Irr.calculate_irr series guess = Ok (Some r) ->
  exists r0,
    ~ 1 + r0 == 0
    /\ (forall k, (k <= List.length series)%nat ->
                   ~ Spec.degenerate (1 + r0) k)
    /\ 1e-10 <= Qabs (Spec.dNPV series r0)
    /\ Qabs (r - r0) < 1e-7
    /\ r = r0 - Spec.NPV series r0 / Spec.dNPV series r0.
Proof.
  intros H.
  destruct (irr_loop_outcome series 100 guess) as (o & Ho & _ & Hsome).
  unfold Irr.calculate_irr in H. rewrite H in Ho.
  injection Ho as <-.
  destruct (proj1 (Hsome r) eq_refl) as (k & _ & _ & Hd & Hf & Hs & Hr).
  exists (Spec.estimate series guess k).
  assert (Hflat : 1e-10 <= Qabs (Spec.dNPV series (Spec.estimate series guess k))).
  { apply Qnot_lt_le. exact Hf. }
  assert (Hne : series <> []).
  { intros ->. vm_compute in Hflat. now apply Hflat. }
  destruct (no_domain_error series _ Hne Hd) as [E Hov].
  conjs.
  - exact E.
  - exact Hov.
  - exact Hflat.
  - rewrite Hr. exact Hs.
  - exact Hr.
Qed.

Lemma Qabs_step (r0 v d : Q) : Qabs (r0 - v / d - r0) == Qabs v / Qabs d.
Proof.
  assert (E : r0 - v / d - r0 == - (v * / d)) by (unfold Qdiv; ring).
  rewrite E, Qabs_opp, Qabs_Qmult, Qabs_Qinv. reflexivity.
Qed.

(** C3, as the code has it.  When the solver returns a rate [r], then [r]
    is one Newton step [r0 - f(r0)/f'(r0)] from an estimate [r0] with
    [|r - r0| < 1e-7] and [|f'(r0)| >= 1e-10], and the NPV of the series at
    [r0] is within [1e-7 * |f'(r0)|] of zero. *)
Theorem irr_round_trip (series : list Q) (guess r : Q) :
  Irr.calculate_irr series guess = Ok (Some r) ->
  exists r0 v0 dterms,
    Engine.npv series r0 = Ok v0
    /\ Irr.derivative_terms series r0 = Ok dterms
    /\ 1e-10 <= Qabs (sum dterms)
    /\ r = r0 - v0 / sum dterms
    /\ Qabs (r - r0) < 1e-7
    /\ Qabs v0 < 1e-7 * Qabs (sum dterms).
Proof.
  intros H.
  destruct (calculate_irr_last_step series guess r H)
    as (r0 & Hr0 & Hov & Hflat & Hclose & Hr).
  exists r0, (Spec.NPV series r0).
  eexists. conjs.
  - unfold Engine.npv.
    rewrite (npv_terms_ok series r0
               (fun k Hk => Hov k (Nat.lt_le_incl _ _ Hk))).
    reflexivity.
  - apply (derivative_terms_ok series r0 Hov).
  - exact Hflat.
  - exact Hr.
  - exact Hclose.
  - fold (Spec.dNPV series r0).
    assert (Hpos : 0 < Qabs (Spec.dNPV series r0)).
    { eapply Qlt_le_trans; [|exact Hflat]. reflexivity. }
    rewrite Hr, Qabs_step in Hclose.
    apply (Qmult_lt_compat_r _ _ _ Hpos) in Hclose.
    assert (E : Qabs (Spec.NPV series r0) / Qabs (Spec.dNPV series r0)
                * Qabs (Spec.dNPV series r0)
                == Qabs (Spec.NPV series r0)).
    { field. intros H0. rewrite H0 in Hpos. exact (Qlt_irrefl _ Hpos). }
    rewrite E in Hclose. exact Hclose.
Qed.

Lemma irr_round_trip_witness :
  exists r,
    Irr.calculate_irr Cases.big_flows 0 = Ok (Some r)
    /\ exists r0 v0 dterms,
         Engine.npv Cases.big_flows r0 = Ok v0
         /\ Irr.derivative_terms Cases.big_flows r0 = Ok dterms
         /\ 1e-10 <= Qabs (sum dterms)
         /\ r = r0 - v0 / sum dterms
         /\ Qabs (r - r0) < 1e-7
         /\ Qabs v0 < 1e-7 * Qabs (sum dterms).
Proof.
  eexists. split.
  - vm_compute. reflexivity.
  - apply (irr_round_trip Cases.big_flows 0). vm_compute. reflexivity.
Defined.

(** C3, as stated, fails: from the guess 0 the solver accepts the first
    Newton step 2^-24 for the flows [-(2^60 - 2^36), 2^60], where the NPV
    is about 4096. *)
Lemma irr_round_trip_fails :
  exists r v,
    Irr.calculate_irr Cases.big_flows 0 = Ok (Some r)
    /\ Engine.npv Cases.big_flows r = Ok v
    /\ ~ Qabs v <= 1e-4.
Proof.
  eexists. eexists. split; [|split].
  - vm_compute. reflexivity.
  - vm_compute. reflexivity.
  - vm_compute. intros H. now apply H.
Qed.

(* ===================================================================== *)
(** ** Discounting                                                       *)
(* ===================================================================== *)

Section Discounting.

Lemma npv_ok (series : list Q) (r : Q) :
  (forall k, (k < List.length series)%nat -> ~ Spec.degenerate (1 + r) k) ->
  Engine.npv series r = Ok (Spec.NPV series r).
Proof.
  intros Hov. unfold Engine.npv.
  rewrite (npv_terms_ok series r Hov). reflexivity.
Qed.

(** A power among those the sum divides by that is out of range, or that
    is the float zero, makes it raise. *)
Lemma npv_degenerate (series : list Q) (r : Q) (k : nat) :
  (k < List.length series)%nat -> Spec.degenerate (1 + r) k ->
  exists e, Engine.npv series r = Raise e.
Proof.
  intros Hk Ho. unfold Engine.npv, Irr.npv_terms.
  destruct (comprehension_raise
              (fun '(i, cf) => d <- power (1 + r) i ;; div cf d)
              (enumerate series) (k, nth k series 0)) as [e He].
  - apply (enumerate_from_nth series 0 0 k Hk).
  - destruct (term_raise (1 + r) (nth k series 0) k Ho) as [-> | ->];
      now eexists.
  - rewrite He. now exists e.
Qed.

(** With two entries or more the rate -1 makes it raise. *)
Lemma npv_raise (series : list Q) (r : Q) :
  1 + r == 0 -> (2 <= List.length series)%nat ->
  exists e, Engine.npv series r = Raise e.
Proof.
  intros H0 Hlen. apply (npv_degenerate series r 1); [lia|].
  right. exact (proj1 (vanishes_base_zero _ 0 H0)).
Qed.

Lemma comprehension_exn {A B} (f : A -> res B) (l : list A) (e0 : exn) :
  (forall x e, In x l -> f x = Raise e -> e = e0) ->
  forall e, comprehension f l = Raise e -> e = e0.
Proof.
  induction l as [|x t IH]; intros Hf e H; [discriminate H|].
  cbn [comprehension] in H. destruct (f x) as [v|e'] eqn:Ex; cbn [bind] in H.
  - destruct (comprehension f t) as [vs|e''] eqn:Et; cbn [bind] in H;
      [discriminate H|].
    injection H as <-. apply IH; [|reflexivity].
    intros z e1 Hz. apply Hf. now right.
  - injection H as <-. apply (Hf x e'); [now left|exact Ex].
Qed.

(** When none of the powers the sum divides by is the float zero, its
    only exception is the overflow. *)
Lemma npv_exn (series : list Q) (r : Q) (e : exn) :
  (forall k, (k < List.length series)%nat -> ~ Spec.vanishes (1 + r) k) ->
  Engine.npv series r = Raise e -> e = OverflowError.
Proof.
  intros Hv H. unfold Engine.npv in H.
  destruct (Irr.npv_terms series r) as [terms|e'] eqn:Et; cbn [bind] in H;
    [discriminate H|].
  injection H as <-. revert Et. unfold Irr.npv_terms.
  apply comprehension_exn. intros [i cf] e1 Hin.
  apply enumerate_from_In in Hin.
  destruct (degenerate_dec (1 + r) i) as [[Ho|Hz]|Hd].
  - rewrite (power_raise _ _ Ho). cbn [bind]. now intros [= <-].
  - exfalso. apply (Hv i); [lia|exact Hz].
  - rewrite (term_ok _ cf _ Hd). discriminate.
Qed.

(** When the sum evaluates, every power it divides by is in range and is
    not the float zero, and its value is the discounted sum. *)
Lemma npv_Ok_inv (series : list Q) (r v : Q) :
  Engine.npv series r = Ok v ->
  (forall k, (k < List.length series)%nat -> ~ Spec.degenerate (1 + r) k)
  /\ v = Spec.NPV series r.
Proof.
  intros H. assert (Hov : forall k, (k < List.length series)%nat ->
                                    ~ Spec.degenerate (1 + r) k).
  { intros k Hk Ho. destruct (npv_degenerate series r k Hk Ho) as [e He].
    rewrite He in H. discriminate. }
  split; [exact Hov|].
  rewrite (npv_ok series r Hov) in H. now injection H.
Qed.

Lemma pow_succ (b : Q) (n : nat) : pow b (S n) == b * pow b n.
Proof.
  unfold pow. rewrite Nat2Z.inj_succ.
  replace (Z.succ (Z.of_nat n)) with (1 + Z.of_nat n)%Z by lia.
  rewrite Qpower_plus' by lia. now rewrite Qpower_1_r.
Qed.

Lemma pow_pos (b : Q) (n : nat) : 0 < b -> 0 < pow b n.
Proof. intros H. unfold pow. now apply Qpower_0_lt. Qed.

Lemma pow_le (a b : Q) (n : nat) : 0 < a -> a <= b -> pow a n <= pow b n.
Proof.
  intros Ha Hab. induction n as [|n IH].
  - unfold pow; simpl. apply Qle_refl.
  - rewrite !pow_succ.
    assert (Hn : 0 < pow a n) by now apply pow_pos.
    apply Qle_trans with (b * pow a n).
    + apply Qmult_le_compat_r; [exact Hab|now apply Qlt_le_weak].
    + apply Qmult_le_l; [exact (Qlt_le_trans _ _ _ Ha Hab)|exact IH].
Qed.

(** A non-negative flow is worth no more at the higher rate. *)
Lemma term_antitone (cf r1 r2 : Q) (n : nat) :
  0 <= cf -> 0 <= r1 -> r1 <= r2 ->
  cf / (1 + r2) ^ Z.of_nat n <= cf / (1 + r1) ^ Z.of_nat n.
Proof.
  intros Hcf H1 H12. fold (pow (1 + r1) n). fold (pow (1 + r2) n).
  assert (Ha : 0 < 1 + r1) by lra.
  assert (Hb : 0 < 1 + r2) by lra.
  assert (Hpa := pow_pos (1 + r1) n Ha).
  assert (Hpb := pow_pos (1 + r2) n Hb).
  assert (Hle : pow (1 + r1) n <= pow (1 + r2) n) by (apply pow_le; lra).
  apply Qle_shift_div_l; [exact Hpa|].
  assert (E : cf / pow (1 + r2) n * pow (1 + r1) n
              == cf * pow (1 + r1) n / pow (1 + r2) n).
  { field. intros H0. rewrite H0 in Hpb. exact (Qlt_irrefl _ Hpb). }
  rewrite E. apply Qle_shift_div_r; [exact Hpb|].
  rewrite !(Qmult_comm cf). now apply Qmult_le_compat_r.
Qed.

Lemma fold_Qplus_le (l1 l2 : list Q) :
  Forall2 Qle l1 l2 ->
  forall a1 a2, a1 <= a2 -> fold_left Qplus l1 a1 <= fold_left Qplus l2 a2.
Proof.
  induction 1 as [|x y l1 l2 Hxy _ IH]; intros a1 a2 Ha; simpl.
  - exact Ha.
  - apply IH. now apply Qplus_le_compat.
Qed.

Lemma terms_antitone (t : list Q) (r1 r2 : Q) :
  Forall (fun x => 0 <= x) t -> 0 <= r1 -> r1 <= r2 ->
  forall k,
    Forall2 Qle
      (map (fun '(i, cf) => cf / (1 + r2) ^ Z.of_nat i) (enumerate_from k t))
      (map (fun '(i, cf) => cf / (1 + r1) ^ Z.of_nat i) (enumerate_from k t)).
Proof.
  intros Ht H1 H12. induction Ht as [|x t Hx _ IH]; intros k; simpl.
  - constructor.
  - constructor; [now apply term_antitone|apply IH].
Qed.

End Discounting.

Lemma pow_ge_one (b : Q) (n : nat) : 1 <= b -> 1 <= pow b n.
Proof.
  intros H. induction n as [|n IH]; [unfold pow; simpl; apply Qle_refl|].
  rewrite pow_succ. setoid_replace 1 with (1 * 1) at 1 by ring.
  apply Qmult_le_compat_nonneg; split; try assumption; discriminate.
Qed.

(** Between 0 and a rate at which the powers can be divided by, they can
    be divided by as well. *)
Lemma regular_lower_rate (r1 r2 : Q) (k : nat) :
  0 <= r1 -> r1 <= r2 ->
  ~ Spec.degenerate (1 + r2) k -> ~ Spec.degenerate (1 + r1) k.
Proof.
  intros H1 H12 H2.
  assert (Hp1 : 1 <= pow (1 + r1) k) by (apply pow_ge_one; lra).
  assert (Hle : pow (1 + r1) k <= pow (1 + r2) k) by (apply pow_le; lra).
  assert (Hp2 : 0 <= pow (1 + r2) k) by lra.
  intros [Ho|Hv].
  - apply H2. left. unfold Spec.overflows in *.
    fold (pow (1 + r1) k) in Ho. fold (pow (1 + r2) k).
    rewrite Qabs_pos in * by lra.
    eapply Qle_trans; eassumption.
  - unfold Spec.vanishes in Hv. fold (pow (1 + r1) k) in Hv.
    rewrite Qabs_pos in Hv by lra.
    pose proof tiny_lt_one. lra.
Qed.

(** C9, as the code has it.  For a series with a negative entry at index 0
    and non-negative entries after it, and for rates [0 <= r1 <= r2] such
    that the NPV sum evaluates at [r2], it evaluates at [r1] as well and
    the NPV at [r2] is not above the one at [r1]. *)
Theorem npv_antitone (c0 : Q) (t : list Q) (r1 r2 v2 : Q) :
  c0 < 0 -> Forall (fun x => 0 <= x) t -> 0 <= r1 -> r1 <= r2 ->
  Engine.npv (c0 :: t) r2 = Ok v2 ->
  exists v1, Engine.npv (c0 :: t) r1 = Ok v1 /\ v2 <= v1.
Proof.
  intros _ Ht H1 H12 H2.
  destruct (npv_Ok_inv _ _ _ H2) as [Hov ->].
  exists (Spec.NPV (c0 :: t) r1). split.
  - apply npv_ok.
    intros k Hk. apply (regular_lower_rate r1 r2 k H1 H12). now apply Hov.
  - unfold Spec.NPV, sum, enumerate.
    cbn [enumerate_from map fold_left].
    apply fold_Qplus_le.
    + now apply terms_antitone.
    + change (Z.of_nat 0) with 0%Z. cbn [Qpower]. apply Qle_refl.
Qed.

Lemma npv_antitone_witness :
  exists v2,
    Engine.npv [-100; 60; 60] 0.1 = Ok v2
    /\ exists v1, Engine.npv [-100; 60; 60] 0 = Ok v1 /\ v2 <= v1.
Proof.
  eexists. split.
  - vm_compute. reflexivity.
  - apply (npv_antitone (-100) [60; 60] 0 0.1).
    + reflexivity.
    + repeat constructor; discriminate.
    + discriminate.
    + discriminate.
    + vm_compute. reflexivity.
Defined.

(** C9, as stated, fails: for the series [-100, 60, 60] the NPV at rate 1
    is -55, and at the rate 1e200 the power [(1 + rate) ** 2] is out of
    range, the sum raises [OverflowError] and the engine reports 0.  The
    same happens on the series of the yearly loop with a cost of capital
    of 1e18 %. *)
Lemma npv_rises_when_power_overflows :
  Engine.npv [-100; 60; 60] (inject_Z (10 ^ 200)) = Raise OverflowError
  /\ Engine.npv_pair [-100; 60; 60] [-100; 60; 60] (inject_Z (10 ^ 200))
     = Ok (0, 0)
  /\ (exists v, Engine.npv_pair [-100; 60; 60] [-100; 60; 60] 1 = Ok (v, v)
                /\ v == -55
                /\ ~ 0 <= v)
  /\ exists st,
       Engine.yearly_loop Cases.rate_huge 400000 = Ok st
       /\ Engine.npv (Engine.flows_avg st) (Engine.wacc Cases.rate_huge)
          = Raise OverflowError
       /\ Engine.npv_pair (Engine.flows_avg st) (Engine.flows_worst st)
            (Engine.wacc Cases.rate_huge)
          = Ok (0, 0).
Proof.
  split; [vm_compute; reflexivity|]. split; [vm_compute; reflexivity|].
  split.
  - eexists. split; [vm_compute; reflexivity|].
    split; [vm_compute; reflexivity|vm_compute; intros H; apply H; reflexivity].
  - eexists. split; [vm_compute; reflexivity|].
    split; vm_compute; reflexivity.
Qed.

(* ===================================================================== *)
(** ** The calculation block                                             *)
(* ===================================================================== *)

Section Calculation.

Import Engine.

Lemma npv_pair_returns (fa fw : list Q) (r : Q) :
  exists p, npv_pair fa fw r = Ok p.
Proof.
  unfold npv_pair.
  destruct (npv fa r) as [a|e]; cbn [bind try_except]; [|now eexists].
  destruct (npv fw r) as [w|e]; cbn [bind try_except]; now eexists.
Qed.

Lemma npv_pair_ok (fa fw : list Q) (r : Q) :
  (forall k, (k < List.length fa)%nat -> ~ Spec.degenerate (1 + r) k) ->
  (forall k, (k < List.length fw)%nat -> ~ Spec.degenerate (1 + r) k) ->
  npv_pair fa fw r = Ok (Spec.NPV fa r, Spec.NPV fw r).
Proof.
  intros Ha Hw. unfold npv_pair.
  now rewrite (npv_ok fa r Ha), (npv_ok fw r Hw).
Qed.

(** A power out of range, or one that is the float zero, in either sum
    sends both NPVs to the [except]. *)
Lemma npv_pair_degenerate (fa fw : list Q) (r : Q) (k : nat) :
  (k < List.length fa)%nat \/ (k < List.length fw)%nat ->
  Spec.degenerate (1 + r) k ->
  npv_pair fa fw r = Ok (0, 0).
Proof.
  intros Hk Ho. unfold npv_pair. destruct Hk as [Hk|Hk].
  - destruct (npv_degenerate fa r k Hk Ho) as [e ->]. reflexivity.
  - destruct (npv fa r) as [a|e]; [|reflexivity]. cbn [bind].
    destruct (npv_degenerate fw r k Hk Ho) as [e ->]. reflexivity.
Qed.

Lemma npv_pair_minus_one (fa fw : list Q) (r : Q) :
  1 + r == 0 -> (2 <= List.length fa)%nat -> npv_pair fa fw r = Ok (0, 0).
Proof.
  intros H0 Hlen. apply (npv_pair_degenerate fa fw r 1); [left; lia|].
  right. exact (proj1 (vanishes_base_zero _ 0 H0)).
Qed.

(** What the two NPVs can be. *)
Lemma npv_pair_cases (fa fw : list Q) (r : Q) :
  npv_pair fa fw r = Ok (Spec.NPV fa r, Spec.NPV fw r)
  \/ npv_pair fa fw r = Ok (0, 0).
Proof.
  unfold npv_pair.
  destruct (npv fa r) as [a|e] eqn:Ea; [|now right]. cbn [bind].
  destruct (npv fw r) as [w|e] eqn:Ew; [|now right]. cbn [bind try_except].
  left. rewrite (proj2 (npv_Ok_inv _ _ _ Ea)), (proj2 (npv_Ok_inv _ _ _ Ew)).
  reflexivity.
Qed.

(** A float rate above -1 has [1 + rate >= 2^-53], and the powers of such
    a base up to the exponent 20 do not underflow. *)
Lemma pow_antitone_exponent (b : Q) (n : nat) :
  0 <= b -> b <= 1 -> pow b (S n) <= pow b n.
Proof.
  intros H0 H1. rewrite pow_succ.
  assert (Hn : 0 <= pow b n) by (unfold pow; now apply Qpower_pos).
  setoid_replace (pow b n) with (1 * pow b n) at 2 by ring.
  now apply Qmult_le_compat_r.
Qed.

Lemma pow_small_base (b : Q) (k n : nat) :
  0 <= b -> b <= 1 -> (k <= n)%nat -> pow b n <= pow b k.
Proof.
  intros H0 H1 Hk. induction Hk as [|n Hk IH]; [apply Qle_refl|].
  eapply Qle_trans; [now apply pow_antitone_exponent|exact IH].
Qed.

Lemma float_rate_no_underflow (b : Q) (k : nat) :
  1 # 2 ^ 53 <= b -> (k <= 20)%nat -> ~ Spec.vanishes b k.
Proof.
  intros Hb Hk Hv. unfold Spec.vanishes in Hv. fold (pow b k) in Hv.
  assert (Hpos : 0 < b) by (eapply Qlt_le_trans; [|exact Hb]; reflexivity).
  rewrite Qabs_pos in Hv by (apply Qlt_le_weak; now apply pow_pos).
  assert (Hlow : pow (1 # 2 ^ 53) 20 <= pow b k).
  { eapply Qle_trans; [apply (pow_small_base _ k 20); [discriminate|discriminate|exact Hk]|].
    apply pow_le; [reflexivity|exact Hb]. }
  assert (Hc : float_tiny < pow (1 # 2 ^ 53) 20) by (vm_compute; reflexivity).
  apply (Qlt_irrefl float_tiny).
  eapply Qlt_le_trans; [exact Hc|]. eapply Qle_trans; eassumption.
Qed.

Lemma year_body_spec (i : inputs) (sy : Q) (st : loop_state) (y : nat) :
  year_body i sy st y
  = if year_in_range i y
    then Ok (extend st (cf_a_float i sy y) (cf_w_float i sy y))
    else Raise OverflowError.
Proof.
  unfold year_body, year_in_range, power.
  destruct (in_range (pow (1 - degr_avg i) (y - 1))); [|reflexivity].
  destruct (in_range (pow (1 + infl_avg i) (y - 1))); [|reflexivity].
  destruct (in_range (pow (1 - degr_worst i) (y - 1))); [|reflexivity].
  destruct (in_range (pow (1 - merit_drop i) (y - 1))); reflexivity.
Qed.

Lemma for_years_spec (i : inputs) (sy : Q) (ys : list nat) :
  forall st,
    for_years i sy ys st
    = if forallb (year_in_range i) ys
      then Ok (fold_left
                 (fun st y => extend st (cf_a_float i sy y) (cf_w_float i sy y))
                 ys st)
      else Raise OverflowError.
Proof.
  induction ys as [|y t IH]; intros st; [reflexivity|].
  cbn [for_years forallb fold_left]. rewrite year_body_spec.
  destruct (year_in_range i y); cbn [bind andb]; [apply IH|reflexivity].
Qed.

(** The loop raises [OverflowError] exactly when one of its powers is out
    of range, whatever the yield, and otherwise ends in [run_loop_float]. *)
Lemma yearly_loop_spec (i : inputs) (sy : Q) :
  yearly_loop i sy
  = if powers_in_range i then Ok (run_loop_float i sy)
    else Raise OverflowError.
Proof. exact (for_years_spec i sy years (loop_init i)). Qed.

(** When no power underflows the floats are the exact powers, and the loop
    ends in [run_loop]. *)
Lemma year_exact_flows (i : inputs) (sy : Q) (y : nat) :
  year_exact i y = true ->
  cf_a_float i sy y = cf_a i sy y /\ cf_w_float i sy y = cf_w i sy y.
Proof.
  unfold year_exact. rewrite !andb_true_iff, !negb_true_iff.
  intros [[[Ha He] Hw] Hm].
  unfold cf_a_float, cf_w_float.
  rewrite (rounded_exact _ Ha), (rounded_exact _ He), (rounded_exact _ Hw),
    (rounded_exact _ Hm).
  split; reflexivity.
Qed.

Lemma fold_extend_ext (fa fw ga gw : nat -> Q) (ys : list nat) :
  (forall y, In y ys -> fa y = ga y /\ fw y = gw y) ->
  forall st,
    fold_left (fun st y => extend st (fa y) (fw y)) ys st
    = fold_left (fun st y => extend st (ga y) (gw y)) ys st.
Proof.
  induction ys as [|y t IH]; intros H st; [reflexivity|].
  cbn [fold_left]. destruct (H y (or_introl eq_refl)) as [-> ->].
  apply IH. intros z Hz. apply H. now right.
Qed.

Lemma run_loop_float_exact (i : inputs) (sy : Q) :
  powers_exact i = true -> run_loop_float i sy = run_loop i sy.
Proof.
  intros H. rewrite run_loop_fold. unfold run_loop_float.
  apply fold_extend_ext. intros y Hy. apply year_exact_flows.
  exact (proj1 (forallb_forall _ _) H y Hy).
Qed.

Lemma yearly_loop_exact (i : inputs) (sy : Q) :
  powers_in_range i = true -> powers_exact i = true ->
  yearly_loop i sy = Ok (run_loop i sy).
Proof.
  intros Hr He. rewrite yearly_loop_spec, Hr.
  now rewrite (run_loop_float_exact i sy He).
Qed.

(** The calculation block returns when the powers of the loop are in
    range. *)
Lemma compute_ok (i : inputs) (sy : Q) :
  powers_in_range i = true ->
  exists npvs irr,
    npv_pair (flows_avg (run_loop_float i sy))
             (flows_worst (run_loop_float i sy)) (wacc i)
    = Ok npvs
    /\ Irr.calculate_irr_default (flows_avg (run_loop_float i sy)) = Ok irr
    /\ compute i sy
       = Ok {| out_flows_avg := flows_avg (run_loop_float i sy);
               out_flows_worst := flows_worst (run_loop_float i sy);
               out_res_avg := res_avg (run_loop_float i sy);
               out_res_worst := res_worst (run_loop_float i sy);
               npv_avg := fst npvs;
               npv_worst := snd npvs;
               irr_avg := irr;
               irr_shown := irr_display irr;
               payback_avg := payback_of (res_avg (run_loop_float i sy));
               payback_worst := payback_of (res_worst (run_loop_float i sy)) |}.
Proof.
  intros Hp.
  destruct (npv_pair_returns (flows_avg (run_loop_float i sy))
              (flows_worst (run_loop_float i sy)) (wacc i)) as [npvs Hn].
  destruct (irr_loop_outcome (flows_avg (run_loop_float i sy)) 100 0.1)
    as (irr & Hi & _).
  exists npvs, irr. conjs; [exact Hn|exact Hi|].
  unfold compute. rewrite yearly_loop_spec, Hp. cbn [bind].
  rewrite Hn. cbn [bind].
  unfold Irr.calculate_irr_default, Irr.calculate_irr. rewrite Hi.
  reflexivity.
Qed.

(** It raises [OverflowError] when one of them is not. *)
Lemma compute_raise (i : inputs) (sy : Q) :
  powers_in_range i = false -> compute i sy = Raise OverflowError.
Proof.
  intros Hp. unfold compute. rewrite yearly_loop_spec, Hp. reflexivity.
Qed.

(** What a returned outcome holds. *)
Lemma compute_inv (i : inputs) (sy : Q) (o : outcome) :
  compute i sy = Ok o ->
  powers_in_range i = true
  /\ out_flows_avg o = flows_avg (run_loop_float i sy)
  /\ out_flows_worst o = flows_worst (run_loop_float i sy)
  /\ out_res_avg o = res_avg (run_loop_float i sy)
  /\ out_res_worst o = res_worst (run_loop_float i sy)
  /\ npv_pair (flows_avg (run_loop_float i sy))
              (flows_worst (run_loop_float i sy)) (wacc i)
     = Ok (npv_avg o, npv_worst o)
  /\ Irr.calculate_irr_default (flows_avg (run_loop_float i sy))
     = Ok (irr_avg o)
  /\ irr_shown o = irr_display (irr_avg o)
  /\ payback_avg o = payback_of (res_avg (run_loop_float i sy))
  /\ payback_worst o = payback_of (res_worst (run_loop_float i sy)).
Proof.
  intros H. destruct (powers_in_range i) eqn:Hp.
  - destruct (compute_ok i sy Hp) as (npvs & irr & Hn & Hi & Hc).
    set (st := run_loop_float i sy) in *.
    pose proof (eq_trans (eq_sym H) Hc) as E. clear H Hc. clearbody st.
    injection E as ->. destruct npvs as [a w].
    cbn [out_flows_avg out_flows_worst out_res_avg out_res_worst npv_avg
         npv_worst irr_avg irr_shown payback_avg payback_worst fst snd].
    conjs; try reflexivity; assumption.
  - pose proof (eq_trans (eq_sym H) (compute_raise i sy Hp)) as E.
    discriminate E.
Qed.

Lemma flows_avg_float_length (i : inputs) (sy : Q) :
  List.length (flows_avg (run_loop_float i sy)) = 21%nat.
Proof. rewrite flows_avg_float_closed. reflexivity. Qed.


Variable geocode : string -> res (option (Q * Q)).
Variable pvgis_request : Q -> Q -> Q -> Z -> Z -> Q -> res Q.

Lemma get_coordinates_returns (a : string) :
  exists r, Helpers.get_coordinates geocode a = Ok r.
Proof.
  unfold Helpers.get_coordinates.
  destruct (geocode a) as [[[la lo]|]|e]; cbn [bind try_except]; now eexists.
Qed.

Lemma location_returns (i : inputs) :
  exists lat lon, location geocode i = Ok (lat, lon).
Proof.
  unfold location. destruct (addr i); [now do 2 eexists|].
  match goal with |- context [Helpers.get_coordinates geocode ?a] =>
    destruct (get_coordinates_returns a) as [[[la lo]|] ->] end;
    cbn [bind]; [destruct (truthy la)|]; now do 2 eexists.
Qed.

Lemma location_fallback (i : inputs) :
  geocode (addr i) = Ok None \/ (exists e, geocode (addr i) = Raise e) ->
  location geocode i = Ok default_location.
Proof.
  intros H. unfold location, Helpers.get_coordinates.
  destruct (addr i) eqn:Ea; [reflexivity|].
  destruct H as [-> |[e ->]]; reflexivity.
Qed.

Lemma calculate_at (i : inputs) (lat lon : Q) :
  location geocode i = Ok (lat, lon) ->
  calculate geocode pvgis_request i
  = (sy <- start_yield pvgis_request i lat lon ;;
     match sy with
     | Some y => o <- compute i y ;; Ok (Some o)
     | None => Ok None
     end).
Proof. intros H. unfold calculate. rewrite H. reflexivity. Qed.

Lemma start_yield_zero_capacity (i : inputs) (lat lon : Q) :
  kwp i <= 0 -> start_yield pvgis_request i lat lon = Ok (Some 0).
Proof.
  intros H. unfold start_yield.
  now rewrite (proj2 (ltb_ge 0 (kwp i)) H).
Qed.

Lemma start_yield_lookup (i : inputs) (lat lon : Q) :
  0 < kwp i ->
  start_yield pvgis_request i lat lon
  = try_except
      (e_y <- pvgis_request lat lon (kwp i) (angle i) (aspect i) 14 ;;
       Ok (Some e_y))
      (Ok None).
Proof.
  intros H. unfold start_yield, Helpers.get_pvgis_data.
  rewrite (proj2 (ltb_lt 0 (kwp i)) H).
  destruct (Qle_bool (kwp i) 0) eqn:E; [|reflexivity].
  apply Qle_bool_iff in E. exfalso. exact (Qlt_not_le _ _ H E).
Qed.

End Calculation.

(** C4, as the code has it.  At a float rate above -1, where
    [1 + rate >= 2^-53], a series of up to 21 entries, as the engine's are,
    is discounted without a division error.  Rates of -1 and below are
    neither rejected nor clamped: at every rate whose powers
    [(1 + rate) ** i] are in the float range and are not the float zero the
    engine reports the ordinary discounted sums, also below -1.  Whenever
    the evaluation raises, by the division by zero at the rate -1 or at a
    power that underflows, or by a power out of range at a large
    [|1 + rate|], the [except] reports both NPVs as the number 0. *)
Theorem npv_rate_handling (fa fw : list Q) (r : Q) :
  (1 # 2 ^ 53 <= 1 + r -> (List.length fa <= 21)%nat ->
   Engine.npv fa r <> Raise ZeroDivisionError)
  /\ ((forall k, (k < List.length fa)%nat -> ~ Spec.degenerate (1 + r) k) ->
      (forall k, (k < List.length fw)%nat -> ~ Spec.degenerate (1 + r) k) ->
      Engine.npv_pair fa fw r = Ok (Spec.NPV fa r, Spec.NPV fw r))
  /\ (r == -1 -> (2 <= List.length fa)%nat ->
      Engine.npv_pair fa fw r = Ok (0, 0))
  /\ (forall k,
        (k < List.length fa)%nat \/ (k < List.length fw)%nat ->
        Spec.degenerate (1 + r) k ->
        Engine.npv_pair fa fw r = Ok (0, 0)).
Proof.
  conjs.
  - intros Hr Hlen H. apply npv_exn in H; [discriminate H|].
    intros k Hk. apply float_rate_no_underflow; [exact Hr|lia].
  - intros Ha Hw. apply npv_pair_ok; [exact Ha|exact Hw].
  - intros Hr Hlen. apply npv_pair_minus_one; [lra|exact Hlen].
  - intros k Hk Ho. now apply (npv_pair_degenerate fa fw r k).
Qed.

Lemma npv_rate_handling_witness :
  Engine.npv [-100; 60; 60] 0 <> Raise ZeroDivisionError
  /\ Engine.npv_pair [-100; 60; 60] [-100; 60; 60] (-1) = Ok (0, 0)
  /\ Engine.npv_pair [-100; 60; 60] [-100; 60; 60] (inject_Z (10 ^ 200))
     = Ok (0, 0).
Proof.
  split; [|split].
  - apply (proj1 (npv_rate_handling [-100; 60; 60] [-100; 60; 60] 0));
      [vm_compute; discriminate|simpl; lia].
  - apply (proj1 (proj2 (proj2
             (npv_rate_handling [-100; 60; 60] [-100; 60; 60] (-1)))));
      [reflexivity|simpl; lia].
  - apply (proj2 (proj2 (proj2
             (npv_rate_handling [-100; 60; 60] [-100; 60; 60]
                (inject_Z (10 ^ 200))))) 2%nat);
      [left; simpl; lia|left; vm_compute; discriminate].
Defined.

(** C4, as stated, fails: with the cost of capital at -100 % the rate is
    -1, nothing is rejected, and on the series of the yearly loop the
    engine reports both NPVs as 0; with the rate -2 it reports a
    discounted sum. *)
Lemma invalid_rate_accepted :
  Engine.wacc Cases.rate_minus_one <= -1
  /\ (exists st,
        Engine.yearly_loop Cases.rate_minus_one 400000 = Ok st
        /\ Engine.npv_pair (Engine.flows_avg st) (Engine.flows_worst st)
             (Engine.wacc Cases.rate_minus_one)
           = Ok (0, 0))
  /\ exists v, Engine.npv_pair [-100; 60; 60] [-100; 60; 60] (-2) = Ok (v, v)
               /\ v == -100.
Proof.
  split; [discriminate|]. split.
  - eexists. split; vm_compute; reflexivity.
  - eexists. split; [vm_compute; reflexivity|reflexivity].
Qed.

(** C2, as the code has it.  When the address lookup fails the default
    coordinates are used.  When the yield lookup fails the block under
    [if start_yield is not None] is skipped: nothing is computed, no yield
    is substituted and nothing is raised.  A zero yield is used only when
    the capacity is not positive, without any lookup; with that zero yield,
    or with the yield the service returns, the press of the button ends as
    the calculation block on that yield ends. *)
Theorem lookup_failure_handling
    (geocode : string -> res (option (Q * Q)))
    (pvgis_request : Q -> Q -> Q -> Z -> Z -> Q -> res Q)
    (i : Engine.inputs) :
  (geocode (Engine.addr i) = Ok None
   \/ (exists e, geocode (Engine.addr i) = Raise e) ->
   Engine.location geocode i = Ok Engine.default_location)
  /\ (forall lat lon,
        Engine.location geocode i = Ok (lat, lon) ->
        0 < Engine.kwp i ->
        (exists e, pvgis_request lat lon (Engine.kwp i) (Engine.angle i)
                     (Engine.aspect i) 14 = Raise e) ->
        Engine.calculate geocode pvgis_request i = Ok None)
  /\ (forall lat lon y,
        Engine.location geocode i = Ok (lat, lon) ->
        0 < Engine.kwp i ->
        pvgis_request lat lon (Engine.kwp i) (Engine.angle i)
          (Engine.aspect i) 14 = Ok y ->
        Engine.calculate geocode pvgis_request i
        = (o <- Engine.compute i y ;; Ok (Some o)))
  /\ (Engine.kwp i <= 0 ->
      Engine.calculate geocode pvgis_request i
      = (o <- Engine.compute i 0 ;; Ok (Some o))).
Proof.
  conjs.
  - apply location_fallback.
  - intros lat lon Hl Hk [e He].
    rewrite (calculate_at _ _ _ _ _ Hl), (start_yield_lookup _ _ _ _ Hk), He.
    reflexivity.
  - intros lat lon y Hl Hk Hy.
    rewrite (calculate_at _ _ _ _ _ Hl), (start_yield_lookup _ _ _ _ Hk), Hy.
    reflexivity.
  - intros Hk. destruct (location_returns geocode i) as (lat & lon & Hl).
    rewrite (calculate_at _ _ _ _ _ Hl), (start_yield_zero_capacity _ _ _ _ Hk).
    reflexivity.
Qed.

Lemma lookup_failure_handling_witness :
  Engine.location Cases.geocode_down Cases.defaults
  = Ok Engine.default_location
  /\ Engine.calculate Cases.geocode_down Cases.pvgis_down Cases.defaults
     = Ok None.
Proof.
  pose proof (lookup_failure_handling Cases.geocode_down Cases.pvgis_down
                Cases.defaults) as (Hloc & Hfail & _).
  assert (Hl : Engine.location Cases.geocode_down Cases.defaults
               = Ok Engine.default_location).
  { apply Hloc. right. now exists LookupFailure. }
  split; [exact Hl|].
  apply (Hfail _ _ Hl); [reflexivity|now exists LookupFailure].
Defined.

(** C2, as stated, fails: with the address resolved to nothing and the
    yield service down, no outcome is computed for the default inputs. *)
Lemma yield_failure_skips_computation :
  ~ exists o,
      Engine.calculate Cases.geocode_nothing Cases.pvgis_down Cases.defaults
      = Ok (Some o).
Proof.
  assert (H : Engine.calculate Cases.geocode_nothing Cases.pvgis_down
                Cases.defaults = Ok None) by (vm_compute; reflexivity).
  intros [o Ho]. rewrite H in Ho. discriminate.
Qed.




(* ===================================================================== *)
(** ** Payback, IRR rendering, number parsing                            *)
(* ===================================================================== *)

Section Payback.

Import Engine.

Lemma first_nonneg_shift (l : list Q) :
  forall k,
    (forall n, first_nonneg (enumerate_from k l) = Year n
               <-> first_nonneg (enumerate_from (S k) l) = Year (S n))
    /\ (first_nonneg (enumerate_from k l) = BeyondHorizon
        <-> first_nonneg (enumerate_from (S k) l) = BeyondHorizon).
Proof.
  induction l as [|x t IH]; intros k; simpl.
  - split; [intros n|]; split; intros H; try discriminate; reflexivity.
  - destruct (geb x 0).
    + split; [intros n|]; split; intros H; try discriminate;
        injection H as H; f_equal; lia.
    + apply IH.
Qed.

(** With a positive CAPEX the code's payback index is one less than the
    first non-negative index of the cumulative-balance sequence of the
    series: index [n] of [res_avg] is year [n + 1]. *)
Lemma payback_index_is_year_minus_one (i : inputs) (sy : Q) :
  0 < capex i ->
  (forall n, payback_of (res_avg (run_loop i sy)) = Year n
             <-> Spec.payback_year (flows_avg (run_loop i sy)) = Year (S n))
  /\ (payback_of (res_avg (run_loop i sy)) = BeyondHorizon
      <-> Spec.payback_year (flows_avg (run_loop i sy)) = BeyondHorizon).
Proof.
  intros Hc. unfold Spec.payback_year, payback_of.
  rewrite res_avg_closed, flows_avg_closed.
  unfold Spec.cumulative_balance, enumerate.
  cbn [enumerate_from first_nonneg].
  assert (E : geb (- capex i) 0 = false).
  { unfold geb. destruct (Qle_bool 0 (- capex i)) eqn:E; [|reflexivity].
    apply Qle_bool_iff in E. lra. }
  rewrite E. apply first_nonneg_shift.
Qed.

End Payback.

(** C1 on the code.  For the plant of 100 that earns a flat 40 a year the
    cumulative balances are -100, -60, -20, 20, ...: the first non-negative
    index of the cumulative-balance sequence is 3, and the calculation
    reports the payback 2. *)
Theorem payback_reported_one_year_early :
  exists o,
    Engine.calculate Cases.geocode_down Cases.pvgis_40 Cases.flat40
    = Ok (Some o)
    /\ Forall2 Qeq
         (firstn 4 (Spec.cumulative_balance (Engine.out_flows_avg o)))
         [-100; -60; -20; 20]
    /\ Spec.payback_year (Engine.out_flows_avg o) = Engine.Year 3
    /\ Engine.payback_avg o = Engine.Year 2.
Proof.
  destruct (compute_ok Cases.flat40 40 ltac:(vm_compute; reflexivity))
    as (npvs & irr & _ & _ & Hc).
  eexists. split.
  - rewrite (calculate_at Cases.geocode_down Cases.pvgis_40 Cases.flat40
               53.55 9.99 eq_refl).
    replace (Engine.start_yield Cases.pvgis_40 Cases.flat40 53.55 9.99)
      with (Ok (Some 40) : res (option Q)) by (vm_compute; reflexivity).
    cbn [bind]. rewrite Hc. reflexivity.
  - cbn [Engine.out_flows_avg Engine.payback_avg]. conjs.
    + vm_compute. repeat constructor.
    + vm_compute. reflexivity.
    + vm_compute. reflexivity.
Qed.

(** How a returned rate is rendered: a rate equal to zero is shown like a
    missing one. *)
Lemma irr_display_not_available (irr : option Q) :
  Engine.irr_display irr = Engine.NotAvailable
  <-> irr = None \/ exists r, irr = Some r /\ r == 0.
Proof.
  unfold Engine.irr_display, Engine.truthy. destruct irr as [r|].
  - destruct (Qeq_bool r 0) eqn:E; simpl.
    + apply Qeq_bool_eq in E. split; [intros _|reflexivity].
      right. now exists r.
    + apply Qeq_bool_neq in E. split; [discriminate|].
      intros [H|(r' & [= <-] & H0)]; [discriminate|contradiction].
  - split; [now left|reflexivity].
Qed.

(** C5 on the code.  The solver returns the rate 0 for the flows [-1, 1]
    from the guess 0, and a returned rate 0 is rendered "n/a", as an
    undefined one is. *)
Theorem zero_irr_rendered_not_available :
  Engine.irr_display (Some 0) = Engine.NotAvailable
  /\ Engine.irr_display None = Engine.NotAvailable
  /\ exists r, Irr.calculate_irr [-1; 1] 0 = Ok (Some r)
               /\ r == 0
               /\ Engine.irr_display (Some r) = Engine.NotAvailable.
Proof.
  split; [reflexivity|]. split; [reflexivity|].
  eexists. split; [vm_compute; reflexivity|].
  split; vm_compute; reflexivity.
Qed.

Section ParserFacts.

Import Parser.

Variable float_of_str : string -> res spec_float.

(** What [parse_de_number] does where it does not raise. *)
Lemma parse_de_number_cases (v : value) :
  match v with
  | VFloat f => parse_de_number float_of_str v = Ok (Some f)
  | VInt n =>
      forall f, float_of_int n = Ok f ->
                parse_de_number float_of_str v = Ok (Some f)
  | VBool b =>
      exists f, float_of_int (if b then 1%Z else 0%Z) = Ok f
                /\ parse_de_number float_of_str v = Ok (Some f)
  | VStr s =>
      (forall f, float_of_str (replace_comma s) = Ok f ->
                 parse_de_number float_of_str v = Ok (Some f))
      /\ (forall e, float_of_str (replace_comma s) = Raise e ->
                    parse_de_number float_of_str v = Ok None)
  | VOther => parse_de_number float_of_str v = Ok None
  end.
Proof.
  destruct v as [b|n|f|s|]; cbn [parse_de_number].
  - destruct b; eexists; split; vm_compute; reflexivity.
  - intros f ->. reflexivity.
  - reflexivity.
  - split; [intros f ->|intros e ->]; reflexivity.
  - reflexivity.
Qed.

End ParserFacts.

(** C10 on the code.  For the [int] 10^400 the conversion [float(value)]
    of the first branch raises [OverflowError], outside any [try]: the
    parser raises, whatever the string parser is. *)
Theorem parse_de_number_raises_on_huge_int
    (float_of_str : string -> res spec_float) :
  Parser.parse_de_number float_of_str (Parser.VInt (10 ^ 400))
  = Raise OverflowError.
Proof. vm_compute. reflexivity. Qed.

(* ===================================================================== *)
(** ** Further properties: formatting and parsing                        *)
(* ===================================================================== *)

Section Separators.

Import Format.

Lemma swap_head (c : ascii) :
  (if Ascii.eqb
        (if Ascii.eqb (if Ascii.eqb c "," then "X"%char else c) "."
         then ","%char else (if Ascii.eqb c "," then "X"%char else c))
        "X"
   then "."%char
   else (if Ascii.eqb (if Ascii.eqb c "," then "X"%char else c) "."
         then ","%char else (if Ascii.eqb c "," then "X"%char else c)))
  = (if Ascii.eqb c "X" then "."%char else swap_char c).
Proof.
  unfold swap_char.
  destruct (Ascii.eqb_spec c ",") as [->|Hc]; [reflexivity|].
  destruct (Ascii.eqb_spec c ".") as [->|Hd]; [reflexivity|].
  destruct (Ascii.eqb c "X"); reflexivity.
Qed.

Lemma swap_char_involutive (c : ascii) : swap_char (swap_char c) = c.
Proof.
  unfold swap_char.
  destruct (Ascii.eqb_spec c ",") as [->|Hc]; [reflexivity|].
  destruct (Ascii.eqb_spec c ".") as [->|Hd]; [reflexivity|].
  rewrite (proj2 (Ascii.eqb_neq c ",") Hc), (proj2 (Ascii.eqb_neq c ".") Hd).
  reflexivity.
Qed.

Lemma swap_char_X (c : ascii) :
  Ascii.eqb c "X" = false -> Ascii.eqb (swap_char c) "X" = false.
Proof.
  unfold swap_char. intros H.
  destruct (Ascii.eqb c ","); [reflexivity|].
  destruct (Ascii.eqb c "."); [reflexivity|exact H].
Qed.

Lemma replace_comma_swap_char (c : ascii) :
  (if Ascii.eqb (swap_char c) Parser.comma then Parser.dot else swap_char c)
  = (if Ascii.eqb c Parser.comma then Parser.dot else c).
Proof.
  unfold swap_char, Parser.comma, Parser.dot.
  destruct (Ascii.eqb_spec c ",") as [->|Hc]; [reflexivity|].
  destruct (Ascii.eqb_spec c ".") as [->|Hd]; [reflexivity|].
  rewrite (proj2 (Ascii.eqb_neq c ",") Hc). reflexivity.
Qed.

End Separators.

Lemma swap_separators_map (s : string) :
  Format.swap_separators s
  = Format.map_string
      (fun c => if Ascii.eqb c "X" then "."%char else Format.swap_char c) s.
Proof.
  unfold Format.swap_separators.
  induction s as [|c t IH]; [reflexivity|].
  cbn [Format.replace_char Format.map_string].
  rewrite IH, swap_head. reflexivity.
Qed.

(** X1.  The three chained replacements of [format_de] exchange [','] and
    ['.'] character by character and leave every other character alone,
    except a literal ['X'], which comes out as ['.']. *)
Theorem swap_separators_pointwise (s : string) :
  Format.swap_separators s
  = Format.map_string
      (fun c => if Ascii.eqb c "X" then "."%char else Format.swap_char c) s.
Proof.
  unfold Format.swap_separators.
  induction s as [|c t IH]; [reflexivity|].
  cbn [Format.replace_char Format.map_string].
  rewrite IH, swap_head. reflexivity.
Qed.

(** X2.  On a string without ['X'] the separator exchange is undone by
    applying it once more. *)
Theorem swap_separators_involutive (s : string) :
  Format.occurs "X" s = false ->
  Format.swap_separators (Format.swap_separators s) = s.
Proof.
  rewrite !swap_separators_map.
  induction s as [|c t IH]; [reflexivity|].
  cbn [Format.occurs Format.map_string]. intros H.
  apply orb_false_iff in H. destruct H as [Hc Ht].
  rewrite Hc, (swap_char_X c Hc), swap_char_involutive, (IH Ht).
  reflexivity.
Qed.

Lemma swap_separators_involutive_witness :
  Format.swap_separators (Format.swap_separators "12,345.67") = "12,345.67"%string.
Proof. apply (swap_separators_involutive "12,345.67"). reflexivity. Defined.

Lemma replace_comma_after_swap (s : string) :
  Format.occurs "X" s = false ->
  Parser.replace_comma (Format.swap_separators s) = Parser.replace_comma s.
Proof.
  rewrite swap_separators_map.
  induction s as [|c t IH]; [reflexivity|].
  cbn [Format.occurs Format.map_string Parser.replace_comma]. intros H.
  apply orb_false_iff in H. destruct H as [Hc Ht].
  rewrite Hc, replace_comma_swap_char, (IH Ht). reflexivity.
Qed.

(** X3.  The parser reads a string in German notation as it reads the
    same string in English notation: after the separator exchange of
    [format_de], the text handed to [float()] is the one obtained from the
    original, both separators having become ['.']. *)
Theorem parse_after_swap (float_of_str : string -> res spec_float) (s : string) :
  Format.occurs "X" s = false ->
  Parser.replace_comma (Format.swap_separators s) = Parser.replace_comma s
  /\ Parser.parse_de_number float_of_str (Parser.VStr (Format.swap_separators s))
     = Parser.parse_de_number float_of_str (Parser.VStr s).
Proof.
  intros H. pose proof (replace_comma_after_swap s H) as E.
  split; [exact E|]. cbn [Parser.parse_de_number]. now rewrite E.
Qed.

Lemma parse_after_swap_witness :
  Parser.replace_comma (Format.swap_separators "12,345.67")
  = Parser.replace_comma "12,345.67".
Proof.
  apply (parse_after_swap (fun _ => Raise ValueError) "12,345.67").
  reflexivity.
Defined.

Lemma replace_comma_fixes (s : string) :
  Format.occurs "," s = false -> Parser.replace_comma s = s.
Proof.
  induction s as [|c t IH]; [reflexivity|].
  cbn [Format.occurs Parser.replace_comma]. intros H.
  apply orb_false_iff in H. destruct H as [Hc Ht].
  unfold Parser.comma. rewrite Hc, (IH Ht). reflexivity.
Qed.

Lemma replace_comma_idempotent (s : string) :
  Parser.replace_comma (Parser.replace_comma s) = Parser.replace_comma s.
Proof.
  induction s as [|c t IH]; [reflexivity|].
  cbn [Parser.replace_comma]. rewrite IH. f_equal.
  unfold Parser.comma, Parser.dot.
  destruct (Ascii.eqb_spec c ",") as [->|Hc]; [reflexivity|].
  now rewrite (proj2 (Ascii.eqb_neq c ",") Hc).
Qed.

(** X4.  A decimal comma and a decimal point are read alike: the parser
    gives the same result for a string and for the string with every [',']
    replaced by ['.']. *)
Theorem parse_comma_as_point (float_of_str : string -> res spec_float) (s : string) :
  Parser.parse_de_number float_of_str (Parser.VStr (Parser.replace_comma s))
  = Parser.parse_de_number float_of_str (Parser.VStr s).
Proof.
  cbn [Parser.parse_de_number]. now rewrite replace_comma_idempotent.
Qed.

(** X5.  Round trip of [format_de] and [parse_de_number].  When the
    fixed-point text [s] of a number has no thousands separator (and no
    ['X']), [format_de] without currency returns a text that the parser
    hands back to [float()] as [s] itself; with a currency the text ends in
    a blank and the currency. *)
Theorem format_then_parse
    (fixed_point : Q -> nat -> res string) (str_of : option Q -> string)
    (float_of_str : string -> res spec_float)
    (x : Q) (decimals : nat) (s : string) :
  fixed_point x decimals = Ok s ->
  Format.occurs "X" s = false ->
  Format.occurs "," s = false ->
  Format.format_de fixed_point str_of (Some x) decimals None
  = Ok (Format.swap_separators s)
  /\ Parser.parse_de_number float_of_str
       (Parser.VStr (Format.swap_separators s))
     = try_except (f <- float_of_str s ;; Ok (Some f)) (Ok None)
  /\ forall c,
       c <> EmptyString ->
       Format.format_de fixed_point str_of (Some x) decimals (Some c)
       = Ok (Format.swap_separators s ++ " " ++ c)%string.
Proof.
  intros Hs HX Hc. conjs.
  - unfold Format.format_de. rewrite Hs. reflexivity.
  - cbn [Parser.parse_de_number].
    now rewrite (replace_comma_after_swap s HX), (replace_comma_fixes s Hc).
  - intros c Hne. unfold Format.format_de. rewrite Hs.
    destruct c as [|a t]; [congruence|reflexivity].
Qed.

Lemma format_then_parse_witness :
  Format.format_de (fun _ _ => Ok "83.33"%string) (fun _ => ""%string)
    (Some (500 / 6)) 2 None
  = Ok "83,33"%string.
Proof.
  apply (format_then_parse (fun _ _ => Ok "83.33"%string) (fun _ => ""%string)
           (fun _ => Raise ValueError) (500 / 6) 2 "83.33");
    reflexivity.
Defined.

(** A missing number is rendered ["n/a"], followed by a blank and
    the currency when one is given; [None] and the empty string count as no
    currency.  No formatting is attempted. *)
Theorem format_de_missing
    (fixed_point : Q -> nat -> res string) (str_of : option Q -> string)
    (decimals : nat) (c : string) :
  Format.format_de fixed_point str_of None decimals None = Ok "n/a"%string
  /\ Format.format_de fixed_point str_of None decimals (Some ""%string)
     = Ok "n/a"%string
  /\ (c <> EmptyString ->
      Format.format_de fixed_point str_of None decimals (Some c)
      = Ok ("n/a " ++ c)%string).
Proof.
  conjs; try reflexivity.
  intros Hne. destruct c as [|a t]; [congruence|reflexivity].
Qed.

Lemma format_de_missing_witness :
  Format.format_de (fun _ _ => Raise ValueError) (fun _ => ""%string)
    None 0 (Some "EUR"%string)
  = Ok "n/a EUR"%string.
Proof.
  apply (format_de_missing (fun _ _ => Raise ValueError) (fun _ => ""%string)
           0 "EUR").
  discriminate.
Defined.

(* ===================================================================== *)
(** ** Further properties: payback lookup                                *)
(* ===================================================================== *)

Section PaybackLookup.

Import Engine.

Lemma geb_true (x : Q) : geb x 0 = true <-> 0 <= x.
Proof. unfold geb. apply Qle_bool_iff. Qed.

Lemma geb_false (x : Q) : geb x 0 = false <-> x < 0.
Proof.
  unfold geb. split.
  - intros H. apply Qnot_le_lt. intros Hle.
    apply Qle_bool_iff in Hle. congruence.
  - intros H. destruct (Qle_bool 0 x) eqn:E; [|reflexivity].
    apply Qle_bool_iff in E. exfalso. exact (Qlt_not_le _ _ H E).
Qed.

Lemma first_nonneg_year (l : list Q) :
  forall k n,
    first_nonneg (enumerate_from k l) = Year n
    <-> exists j, n = (k + j)%nat /\ (j < List.length l)%nat
                  /\ 0 <= nth j l 0
                  /\ forall m, (m < j)%nat -> nth m l 0 < 0.
Proof.
  induction l as [|x t IH]; intros k n; cbn [enumerate_from first_nonneg].
  - split; [discriminate|]. intros (j & _ & Hj & _). simpl in Hj. lia.
  - destruct (geb x 0) eqn:E.
    + apply geb_true in E. split.
      * intros [= <-]. exists 0%nat. conjs; [lia|simpl; lia|exact E|].
        intros m Hm. lia.
      * intros (j & -> & _ & _ & Hall). destruct j as [|j].
        -- f_equal. lia.
        -- exfalso. specialize (Hall 0%nat ltac:(lia)). simpl in Hall.
           exact (Qlt_not_le _ _ Hall E).
    + apply geb_false in E. rewrite IH. split.
      * intros (j & -> & Hj & Hn & Hall). exists (S j).
        conjs; [lia|simpl; lia|exact Hn|].
        intros [|m] Hm; [exact E|]. apply Hall. lia.
      * intros (j & -> & Hj & Hn & Hall). destruct j as [|j].
        -- exfalso. simpl in Hn. exact (Qlt_not_le _ _ E Hn).
        -- exists j. conjs; [lia|simpl in Hj; lia|exact Hn|].
           intros m Hm. apply (Hall (S m)). lia.
Qed.

Lemma first_nonneg_beyond (l : list Q) :
  forall k,
    first_nonneg (enumerate_from k l) = BeyondHorizon
    <-> forall m, (m < List.length l)%nat -> nth m l 0 < 0.
Proof.
  induction l as [|x t IH]; intros k; cbn [enumerate_from first_nonneg].
  - split; [|reflexivity]. intros _ m Hm. simpl in Hm. lia.
  - destruct (geb x 0) eqn:E.
    + apply geb_true in E. split; [discriminate|]. intros Hall.
      exfalso. specialize (Hall 0%nat ltac:(simpl; lia)). simpl in Hall.
      exact (Qlt_not_le _ _ Hall E).
    + apply geb_false in E. rewrite IH. split.
      * intros Hall [|m] Hm; [exact E|]. apply Hall. simpl in Hm. lia.
      * intros Hall m Hm. apply (Hall (S m)). simpl. lia.
Qed.

Lemma running_length (l : list Q) :
  forall acc, List.length (Spec.running acc l) = List.length l.
Proof. induction l as [|x t IH]; intros acc; simpl; [|rewrite IH]; reflexivity. Qed.

Lemma res_avg_float_length (i : inputs) (sy : Q) :
  List.length (res_avg (run_loop_float i sy)) = 20%nat.
Proof. rewrite res_avg_float_closed, running_length. reflexivity. Qed.

Lemma res_worst_float_length (i : inputs) (sy : Q) :
  List.length (res_worst (run_loop_float i sy)) = 20%nat.
Proof. rewrite res_worst_float_closed, running_length. reflexivity. Qed.

End PaybackLookup.

Lemma payback_of_first (balances : list Q) (n : nat) :
  (Engine.payback_of balances = Engine.Year n
   <-> (n < List.length balances)%nat
       /\ 0 <= nth n balances 0
       /\ forall m, (m < n)%nat -> nth m balances 0 < 0)
  /\ (Engine.payback_of balances = Engine.BeyondHorizon
      <-> forall m, (m < List.length balances)%nat -> nth m balances 0 < 0).
Proof.
  unfold Engine.payback_of, enumerate. split.
  - rewrite first_nonneg_year. split.
    + intros (j & -> & H). exact H.
    + intros H. exists n. split; [reflexivity|exact H].
  - apply first_nonneg_beyond.
Qed.

(** X6.  The payback lookup returns the index [n] exactly when entry [n]
    of the list is the first one that is [>= 0], and the string [">20"]
    exactly when every entry is negative (in particular for an empty
    list). *)
Theorem payback_lookup_first (balances : list Q) (n : nat) :
  (Engine.payback_of balances = Engine.Year n
   <-> (n < List.length balances)%nat
       /\ 0 <= nth n balances 0
       /\ forall m, (m < n)%nat -> nth m balances 0 < 0)
  /\ (Engine.payback_of balances = Engine.BeyondHorizon
      <-> forall m, (m < List.length balances)%nat -> nth m balances 0 < 0).
Proof.
  unfold Engine.payback_of, enumerate. split.
  - rewrite first_nonneg_year. split.
    + intros (j & -> & H). exact H.
    + intros H. exists n. split; [reflexivity|exact H].
  - apply first_nonneg_beyond.
Qed.

(** X7.  A payback the calculation reports is an index below 20 or the
    string [">20"]: the value 20 is never reported, and a reported [n] means
    that the balance after year [n + 1] is the first non-negative one. *)
Theorem reported_payback_range
    (i : Engine.inputs) (sy : Q) (o : Engine.outcome) (n : nat) :
  Engine.compute i sy = Ok o ->
  (Engine.payback_avg o = Engine.Year n ->
   (n < 20)%nat
   /\ 0 <= nth n (Engine.out_res_avg o) 0
   /\ forall m, (m < n)%nat -> nth m (Engine.out_res_avg o) 0 < 0)
  /\ (Engine.payback_worst o = Engine.Year n ->
      (n < 20)%nat
      /\ 0 <= nth n (Engine.out_res_worst o) 0
      /\ forall m, (m < n)%nat -> nth m (Engine.out_res_worst o) 0 < 0).
Proof.
  intros Hc.
  destruct (compute_inv i sy o Hc)
    as (_ & _ & _ & Hra & Hrw & _ & _ & _ & Hpa & Hpw).
  rewrite Hra, Hrw, Hpa, Hpw.
  split; intros H; apply (proj1 (payback_of_first _ n)) in H;
    destruct H as (Hn & H0 & Hall).
  - rewrite res_avg_float_length in Hn. conjs; assumption.
  - rewrite res_worst_float_length in Hn. conjs; assumption.
Qed.

Lemma reported_payback_range_witness :
  exists o,
    Engine.compute Cases.defaults 400000 = Ok o
    /\ forall n, Engine.payback_avg o = Engine.Year n -> (n < 20)%nat.
Proof.
  destruct (compute_ok Cases.defaults 400000 ltac:(vm_compute; reflexivity))
    as (npvs & irr & _ & _ & Hc).
  eexists. split; [exact Hc|].
  intros n Hn.
  exact (proj1 (proj1 (reported_payback_range _ _ _ n Hc) Hn)).
Defined.

(* ===================================================================== *)
(** ** Further properties: balances and discounting                      *)
(* ===================================================================== *)

Section Sums.

Lemma fold_Qplus_acc (l : list Q) :
  forall a, fold_left Qplus l a == a + fold_left Qplus l 0.
Proof.
  induction l as [|x t IH]; intros a; simpl.
  - ring.
  - rewrite (IH (a + x)), (IH (0 + x)). ring.
Qed.

Lemma sum_cons (x : Q) (l : list Q) : sum (x :: l) == x + sum l.
Proof. unfold sum. simpl. rewrite fold_Qplus_acc. ring. Qed.

Lemma fold_Qplus_eq (l1 l2 : list Q) :
  Forall2 Qeq l1 l2 ->
  forall a1 a2, a1 == a2 -> fold_left Qplus l1 a1 == fold_left Qplus l2 a2.
Proof.
  induction 1 as [|x y l1 l2 Hxy _ IH]; intros a1 a2 Ha; simpl.
  - exact Ha.
  - apply IH. now rewrite Ha, Hxy.
Qed.

Lemma running_nth (l : list Q) :
  forall acc k,
    (k < List.length l)%nat ->
    nth k (Spec.running acc l) 0 == acc + sum (firstn (S k) l).
Proof.
  induction l as [|x t IH]; intros acc k Hk; [simpl in Hk; lia|].
  destruct k as [|k].
  - cbn [Spec.running nth firstn]. rewrite sum_cons.
    unfold sum; simpl. ring.
  - cbn [Spec.running nth]. rewrite IH by (simpl in Hk; lia).
    change (firstn (S (S k)) (x :: t)) with (x :: firstn (S k) t).
    rewrite sum_cons. ring.
Qed.

Lemma terms_at_zero (series : list Q) (r : Q) :
  r == 0 ->
  forall k,
    Forall2 Qeq
      (map (fun '(i, cf) => cf / (1 + r) ^ Z.of_nat i) (enumerate_from k series))
      series.
Proof.
  intros Hr. induction series as [|cf t IH]; intros k; simpl.
  - constructor.
  - constructor; [|apply IH].
    rewrite Hr. setoid_replace (1 + 0) with 1 by ring.
    rewrite Qpower_1. field.
Qed.

End Sums.

(** X8.  At a discount rate of zero the NPV is computed without error
    and equals the plain sum of the series. *)
Theorem npv_at_rate_zero (series : list Q) (r : Q) :
  r == 0 ->
  exists v, Engine.npv series r = Ok v /\ v == sum series.
Proof.
  intros Hr. exists (Spec.NPV series r). split.
  - apply npv_ok.
    intros k _. apply regular_base_one. rewrite Hr. reflexivity.
  - unfold Spec.NPV, sum. apply fold_Qplus_eq; [|reflexivity].
    now apply terms_at_zero.
Qed.

Lemma npv_at_rate_zero_witness :
  exists v, Engine.npv [-100; 60; 60] 0 = Ok v /\ v == sum [-100; 60; 60].
Proof. apply (npv_at_rate_zero [-100; 60; 60] 0). reflexivity. Defined.

Lemma partial_sums_closed (c : Q) (f : nat -> Q) (y : nat) :
  (1 <= y <= 20)%nat ->
  nth (y - 1) (Spec.running c (map f Engine.years)) 0
  == sum (firstn (S y) (c :: map f Engine.years))
  /\ nth 19 (Spec.running c (map f Engine.years)) 0
     == sum (c :: map f Engine.years).
Proof.
  intros Hy.
  assert (Hlen : List.length (map f Engine.years) = 20%nat)
    by (rewrite length_map; reflexivity).
  assert (Hpart : forall k, (k < 20)%nat ->
            nth k (Spec.running c (map f Engine.years)) 0
            == sum (firstn (S (S k)) (c :: map f Engine.years))).
  { intros k Hk. rewrite running_nth by (rewrite Hlen; lia).
    change (firstn (S (S k)) (c :: map f Engine.years))
      with (c :: firstn (S k) (map f Engine.years)).
    now rewrite sum_cons. }
  assert (Hall : firstn 21 (c :: map f Engine.years)
                 = c :: map f Engine.years).
  { apply firstn_all2. cbn [List.length]. rewrite Hlen. lia. }
  replace (S y) with (S (S (y - 1))) by lia.
  split.
  - apply Hpart. lia.
  - rewrite <- Hall. apply (Hpart 19%nat). lia.
Qed.

(** X9.  The balance the loop keeps after year [y] is the sum of the
    cash-flow series up to and including index [y], in both scenarios; the
    last balance is the sum of the whole series. *)
Theorem balance_is_partial_sum (i : Engine.inputs) (sy : Q) (y : nat) :
  (1 <= y <= 20)%nat ->
  nth (y - 1) (Engine.res_avg (Engine.run_loop i sy)) 0
  == sum (firstn (S y) (Engine.flows_avg (Engine.run_loop i sy)))
  /\ nth (y - 1) (Engine.res_worst (Engine.run_loop i sy)) 0
     == sum (firstn (S y) (Engine.flows_worst (Engine.run_loop i sy)))
  /\ nth 19 (Engine.res_avg (Engine.run_loop i sy)) 0
     == sum (Engine.flows_avg (Engine.run_loop i sy))
  /\ nth 19 (Engine.res_worst (Engine.run_loop i sy)) 0
     == sum (Engine.flows_worst (Engine.run_loop i sy)).
Proof.
  intros Hy.
  rewrite res_avg_closed, res_worst_closed, flows_avg_closed,
    flows_worst_closed.
  assert (Hlen : forall f : nat -> Q, List.length (map f Engine.years) = 20%nat)
    by (intros f; rewrite length_map; reflexivity).
  assert (Hpart : forall (f : nat -> Q) k, (k < 20)%nat ->
            nth k (Spec.running (- Engine.capex i) (map f Engine.years)) 0
            == sum (firstn (S (S k)) (- Engine.capex i :: map f Engine.years))).
  { intros f k Hk. rewrite running_nth by (rewrite Hlen; lia).
    change (firstn (S (S k)) (- Engine.capex i :: map f Engine.years))
      with (- Engine.capex i :: firstn (S k) (map f Engine.years)).
    now rewrite sum_cons. }
  assert (Hall : forall f : nat -> Q,
            firstn 21 (- Engine.capex i :: map f Engine.years)
            = - Engine.capex i :: map f Engine.years).
  { intros f. apply firstn_all2. cbn [List.length]. rewrite Hlen. lia. }
  replace (S y) with (S (S (y - 1))) by lia.
  conjs.
  - apply Hpart. lia.
  - apply Hpart. lia.
  - rewrite <- (Hall (Engine.cf_a i sy)). apply (Hpart _ 19%nat). lia.
  - rewrite <- (Hall (Engine.cf_w i sy)). apply (Hpart _ 19%nat). lia.
Qed.

Lemma balance_is_partial_sum_witness :
  nth 2 (Engine.res_avg (Engine.run_loop Cases.flat40 40)) 0
  == sum (firstn 4 (Engine.flows_avg (Engine.run_loop Cases.flat40 40))).
Proof.
  exact (proj1 (balance_is_partial_sum Cases.flat40 40 3 ltac:(lia))).
Defined.

(** X10.  With a cost of capital of zero the two NPVs a returned outcome
    holds are the final cumulative balances of the two scenarios. *)
Theorem npv_is_final_balance (i : Engine.inputs) (sy : Q) (o : Engine.outcome) :
  Engine.compute i sy = Ok o ->
  Engine.wacc i == 0 ->
  Engine.npv_avg o == nth 19 (Engine.out_res_avg o) 0
  /\ Engine.npv_worst o == nth 19 (Engine.out_res_worst o) 0.
Proof.
  intros Hc Hw.
  destruct (compute_inv i sy o Hc)
    as (_ & _ & _ & Hra & Hrw & Hn & _).
  rewrite Hra, Hrw, res_avg_float_closed, res_worst_float_closed.
  rewrite (proj2 (partial_sums_closed (- Engine.capex i)
                    (Engine.cf_a_float i sy) 1 ltac:(lia))),
    (proj2 (partial_sums_closed (- Engine.capex i)
              (Engine.cf_w_float i sy) 1 ltac:(lia))).
  rewrite <- flows_avg_float_closed, <- flows_worst_float_closed.
  remember (Engine.flows_avg (Engine.run_loop_float i sy)) as fa eqn:Efa.
  remember (Engine.flows_worst (Engine.run_loop_float i sy)) as fw eqn:Efw.
  clear Efa Efw Hra Hrw Hc.
  assert (H1 : 1 + Engine.wacc i == 1) by (rewrite Hw; ring).
  rewrite npv_pair_ok in Hn.
  - injection Hn as <- <-.
    split; unfold Spec.NPV, sum; (apply fold_Qplus_eq; [|reflexivity]);
      now apply terms_at_zero.
  - intros k _. now apply regular_base_one.
  - intros k _. now apply regular_base_one.
Qed.

Lemma npv_is_final_balance_witness :
  exists o,
    Engine.compute Scenarios.zero_rate 400000 = Ok o
    /\ Engine.npv_avg o == nth 19 (Engine.out_res_avg o) 0
    /\ Engine.npv_worst o == nth 19 (Engine.out_res_worst o) 0.
Proof.
  destruct (compute_ok Scenarios.zero_rate 400000
              ltac:(vm_compute; reflexivity)) as (npvs & irr & _ & _ & Hc).
  eexists. split; [exact Hc|].
  apply (npv_is_final_balance _ _ _ Hc). reflexivity.
Defined.

(** X11.  Steady state: with no degradation, no inflation, no merit-order
    decay and no replacement cost, every year of both scenarios has the
    net cash flow of year 1 of the average scenario. *)
Theorem steady_state (i : Engine.inputs) (sy : Q) (y : nat) :
  Engine.degr_avg i == 0 -> Engine.degr_worst i == 0 ->
  Engine.infl_avg i == 0 -> Engine.merit_drop i == 0 ->
  Engine.inv_cost i == 0 ->
  (1 <= y <= 20)%nat ->
  nth y (Engine.flows_avg (Engine.run_loop i sy)) 0
  == nth 1 (Engine.flows_avg (Engine.run_loop i sy)) 0
  /\ nth y (Engine.flows_worst (Engine.run_loop i sy)) 0
     == nth 1 (Engine.flows_avg (Engine.run_loop i sy)) 0.
Proof.
  intros Hda Hdw Hi Hm Hc Hy.
  rewrite flows_avg_closed, flows_worst_closed.
  rewrite !nth_year by lia.
  assert (P1 : forall n, (1 - 0) ^ n == 1)
    by (intros n; setoid_replace (1 - 0) with 1 by ring; apply Qpower_1).
  assert (P2 : forall n, (1 + 0) ^ n == 1)
    by (intros n; setoid_replace (1 + 0) with 1 by ring; apply Qpower_1).
  unfold Engine.cf_a, Engine.cf_w, Engine.rev_a, Engine.rev_w, Engine.cost_a,
    Engine.cost_w, Engine.prod_a, Engine.prod_w, Engine.p_ind_a,
    Engine.p_mark_a, Engine.p_mark_w, Engine.invest_fix, pow.
  rewrite Hda, Hdw, Hi, Hm, ?P1, ?P2.
  destruct (Nat.eqb y (Engine.inv_year i)); [rewrite Hc|]; split; ring.
Qed.

Lemma steady_state_witness :
  nth 7 (Engine.flows_avg (Engine.run_loop Cases.flat40 40)) 0
  == nth 1 (Engine.flows_avg (Engine.run_loop Cases.flat40 40)) 0.
Proof.
  exact (proj1 (steady_state Cases.flat40 40 7
                  eq_refl eq_refl eq_refl eq_refl eq_refl ltac:(lia))).
Defined.

(* ===================================================================== *)
(** ** Further properties: worst case against average case              *)
(* ===================================================================== *)

Section Ordering.

Import Engine.

Lemma pow_nonneg_le (a b : Q) (n : nat) :
  0 <= a -> a <= b -> 0 <= pow a n /\ pow a n <= pow b n.
Proof.
  intros Ha Hab. induction n as [|n [IH0 IH]].
  - unfold pow; simpl. split; [discriminate|apply Qle_refl].
  - rewrite !pow_succ. split.
    + now apply Qmult_le_0_compat.
    + apply Qmult_le_compat_nonneg; split; assumption.
Qed.

Lemma pow_one (n : nat) : pow 1 n == 1.
Proof. unfold pow. apply Qpower_1. Qed.

Lemma mult_mono (a b c d : Q) :
  0 <= a -> a <= b -> 0 <= c -> c <= d -> 0 <= a * c /\ a * c <= b * d.
Proof.
  intros Ha Hab Hc Hcd. split.
  - now apply Qmult_le_0_compat.
  - apply Qmult_le_compat_nonneg; split; assumption.
Qed.

(** Year by year the worst-case net flow is not above the average one. *)
Lemma cf_w_le_cf_a (i : inputs) (sy : Q) (y : nat) :
  Ranges.plausible i sy -> cf_w i sy y <= cf_a i sy y.
Proof.
  intros (Hsy & Hs0 & Hs1 & Hpi & Hpm & Hda & Hdaw & Hdw & Hin & Hm0 & Hm1 & Hic).
  set (n := (y - 1)%nat).
  destruct (pow_nonneg_le (1 - degr_worst i) (1 - degr_avg i) n) as [W0 WA];
    [lra|lra|].
  destruct (pow_nonneg_le (1 - merit_drop i) 1 n) as [M0 M1]; [lra|lra|].
  rewrite pow_one in M1.
  destruct (pow_nonneg_le 1 (1 + infl_avg i) n) as [_ I1]; [lra|lra|].
  rewrite pow_one in I1.
  assert (Hinv : 0 <= invest_fix i y)
    by (unfold invest_fix; destruct (Nat.eqb y (inv_year i)); [exact Hic|lra]).
  (* production *)
  destruct (mult_mono sy sy _ _ Hsy (Qle_refl _) W0 WA) as [Pw0 Pwa].
  fold n in Pw0, Pwa.
  (* self-consumed part *)
  destruct (mult_mono _ _ (self_use i) (self_use i) Pw0 Pwa Hs0 (Qle_refl _))
    as [S0 S1].
  assert (Hpia : p_industry i <= p_industry i * pow (1 + infl_avg i) n).
  { rewrite <- (Qmult_1_r (p_industry i)) at 1.
    apply Qmult_le_compat_nonneg; split; try lra. }
  destruct (mult_mono _ _ _ _ S0 S1 Hpi Hpia) as [_ T1].
  (* exported part *)
  assert (Hs' : 0 <= 1 - self_use i) by lra.
  destruct (mult_mono _ _ (1 - self_use i) (1 - self_use i) Pw0 Pwa Hs'
              (Qle_refl _)) as [E0 E1].
  assert (Hpmw0 : 0 <= p_market i * pow (1 - merit_drop i) n)
    by now apply Qmult_le_0_compat.
  assert (Hpmwa : p_market i * pow (1 - merit_drop i) n
                  <= p_market i * pow (1 + infl_avg i) n).
  { apply Qmult_le_compat_nonneg; split; lra. }
  destruct (mult_mono _ _ _ _ E0 E1 Hpmw0 Hpmwa) as [_ T2].
  unfold cf_w, cf_a, rev_w, rev_a, cost_w, cost_a, prod_w, prod_a, p_ind_a,
    p_mark_a, p_mark_w.
  fold n. lra.
Qed.

Lemma flows_ordered (i : inputs) (sy : Q) :
  Ranges.plausible i sy ->
  Forall2 Qle (flows_worst (run_loop i sy)) (flows_avg (run_loop i sy)).
Proof.
  intros H. rewrite flows_worst_closed, flows_avg_closed.
  constructor; [apply Qle_refl|].
  induction years as [|y ys IH]; simpl; constructor;
    [now apply cf_w_le_cf_a|exact IH].
Qed.

Lemma running_ordered (l1 l2 : list Q) :
  Forall2 Qle l1 l2 ->
  forall a1 a2, a1 <= a2 ->
    Forall2 Qle (Spec.running a1 l1) (Spec.running a2 l2).
Proof.
  induction 1 as [|x y l1 l2 Hxy _ IH]; intros a1 a2 Ha; simpl;
    constructor.
  - now apply Qplus_le_compat.
  - apply IH. now apply Qplus_le_compat.
Qed.

Lemma balances_ordered (i : inputs) (sy : Q) :
  Ranges.plausible i sy ->
  Forall2 Qle (res_worst (run_loop i sy)) (res_avg (run_loop i sy)).
Proof.
  intros H. rewrite res_worst_closed, res_avg_closed.
  apply running_ordered; [|apply Qle_refl].
  induction years as [|y ys IH]; simpl; constructor;
    [now apply cf_w_le_cf_a|exact IH].
Qed.

(** The same year by year for the flows on floats: rounding keeps the
    order of the powers. *)
Lemma cf_w_float_le_cf_a_float (i : inputs) (sy : Q) (y : nat) :
  Ranges.plausible i sy -> cf_w_float i sy y <= cf_a_float i sy y.
Proof.
  intros (Hsy & Hs0 & Hs1 & Hpi & Hpm & Hda & Hdaw & Hdw & Hin & Hm0 & Hm1 & Hic).
  set (n := (y - 1)%nat).
  destruct (pow_nonneg_le (1 - degr_worst i) (1 - degr_avg i) n) as [W0' WA'];
    [lra|lra|].
  destruct (rounded_mono _ _ W0' WA') as [W0 WA].
  destruct (pow_nonneg_le (1 - merit_drop i) 1 n) as [M0' M1']; [lra|lra|].
  rewrite pow_one in M1'.
  destruct (rounded_mono _ _ M0' (Qle_refl _)) as [M0 _].
  pose proof (rounded_le _ M0') as M1.
  assert (M1'' : rounded (pow (1 - merit_drop i) n) <= 1) by lra.
  destruct (pow_nonneg_le 1 (1 + infl_avg i) n) as [_ I1']; [lra|lra|].
  rewrite pow_one in I1'.
  assert (I1 : 1 <= rounded (pow (1 + infl_avg i) n))
    by (rewrite (rounded_ge_one _ I1'); exact I1').
  assert (Hinv : 0 <= (if Nat.eqb y (inv_year i) then inv_cost i else 0))
    by (destruct (Nat.eqb y (inv_year i)); [exact Hic|lra]).
  set (dw := rounded (pow (1 - degr_worst i) n)) in *.
  set (da := rounded (pow (1 - degr_avg i) n)) in *.
  set (m := rounded (pow (1 - merit_drop i) n)) in *.
  set (e := rounded (pow (1 + infl_avg i) n)) in *.
  (* production *)
  destruct (mult_mono sy sy _ _ Hsy (Qle_refl _) W0 WA) as [Pw0 Pwa].
  (* self-consumed part *)
  destruct (mult_mono _ _ (self_use i) (self_use i) Pw0 Pwa Hs0 (Qle_refl _))
    as [S0 S1].
  assert (Hpia : p_industry i <= p_industry i * e).
  { rewrite <- (Qmult_1_r (p_industry i)) at 1.
    apply Qmult_le_compat_nonneg; split; try lra. }
  destruct (mult_mono _ _ _ _ S0 S1 Hpi Hpia) as [_ T1].
  (* exported part *)
  assert (Hs' : 0 <= 1 - self_use i) by lra.
  destruct (mult_mono _ _ (1 - self_use i) (1 - self_use i) Pw0 Pwa Hs'
              (Qle_refl _)) as [E0 E1].
  assert (Hpmw0 : 0 <= p_market i * m) by now apply Qmult_le_0_compat.
  assert (Hpmwa : p_market i * m <= p_market i * e).
  { apply Qmult_le_compat_nonneg; split; lra. }
  destruct (mult_mono _ _ _ _ E0 E1 Hpmw0 Hpmwa) as [_ T2].
  unfold cf_w_float, cf_a_float. cbv zeta.
  fold n. fold dw. fold da. fold m. fold e. lra.
Qed.

Lemma flows_float_ordered (i : inputs) (sy : Q) :
  Ranges.plausible i sy ->
  Forall2 Qle (flows_worst (run_loop_float i sy))
              (flows_avg (run_loop_float i sy)).
Proof.
  intros H. rewrite flows_worst_float_closed, flows_avg_float_closed.
  constructor; [apply Qle_refl|].
  induction years as [|y ys IH]; simpl; constructor;
    [now apply cf_w_float_le_cf_a_float|exact IH].
Qed.


Lemma Forall2_nth_le (l1 l2 : list Q) :
  Forall2 Qle l1 l2 ->
  forall n, nth n l1 0 <= nth n l2 0.
Proof.
  induction 1 as [|x y l1 l2 Hxy _ IH]; intros [|n]; simpl;
    try apply Qle_refl; [exact Hxy|apply IH].
Qed.

Lemma discounted_terms_ordered (l1 l2 : list Q) (r : Q) :
  -1 < r -> Forall2 Qle l1 l2 ->
  forall k,
    Forall2 Qle
      (map (fun '(i, cf) => cf / (1 + r) ^ Z.of_nat i) (enumerate_from k l1))
      (map (fun '(i, cf) => cf / (1 + r) ^ Z.of_nat i) (enumerate_from k l2)).
Proof.
  intros Hr H. induction H as [|x y l1 l2 Hxy _ IH]; intros k; simpl;
    constructor; [|apply IH].
  unfold Qdiv. apply Qmult_le_compat_r; [exact Hxy|].
  apply Qinv_le_0_compat, Qpower_0_le. lra.
Qed.

Lemma NPV_ordered (l1 l2 : list Q) (r : Q) :
  -1 < r -> Forall2 Qle l1 l2 -> Spec.NPV l1 r <= Spec.NPV l2 r.
Proof.
  intros Hr H. unfold Spec.NPV, sum. apply fold_Qplus_le; [|apply Qle_refl].
  now apply discounted_terms_ordered.
Qed.

End Ordering.

(** X12.  For parameters in their meaningful ranges the worst-case series
    lies below the average one: in every year the worst-case net flow and
    the worst-case cumulative balance are not above the average-case
    ones. *)
Theorem worst_case_below_average (i : Engine.inputs) (sy : Q) (y : nat) :
  Ranges.plausible i sy ->
  nth y (Engine.flows_worst (Engine.run_loop i sy)) 0
  <= nth y (Engine.flows_avg (Engine.run_loop i sy)) 0
  /\ nth y (Engine.res_worst (Engine.run_loop i sy)) 0
     <= nth y (Engine.res_avg (Engine.run_loop i sy)) 0.
Proof.
  intros H. split; apply Forall2_nth_le.
  - now apply flows_ordered.
  - now apply balances_ordered.
Qed.

(** X13.  For parameters in their meaningful ranges and a cost of capital
    above -100 %, the worst-case NPV of a returned outcome is not above its
    average-case NPV. *)
Theorem worst_npv_below_average
    (i : Engine.inputs) (sy : Q) (o : Engine.outcome) :
  Engine.compute i sy = Ok o ->
  Ranges.plausible i sy -> -1 < Engine.wacc i ->
  Engine.npv_worst o <= Engine.npv_avg o.
Proof.
  intros Hc H Hw.
  destruct (compute_inv i sy o Hc) as (_ & _ & _ & _ & _ & Hn & _).
  pose proof (NPV_ordered _ _ (Engine.wacc i) Hw
                (flows_float_ordered i sy H)) as Hle.
  destruct (npv_pair_cases (Engine.flows_avg (Engine.run_loop_float i sy))
              (Engine.flows_worst (Engine.run_loop_float i sy))
              (Engine.wacc i))
    as [Hp|Hp].
  - pose proof (eq_trans (eq_sym Hn) Hp) as E.
    assert (Ea : Engine.npv_avg o
                 = Spec.NPV (Engine.flows_avg (Engine.run_loop_float i sy))
                     (Engine.wacc i))
      by exact (f_equal (fun x => match x with Ok (a, _) => a | Raise _ => 0 end) E).
    assert (Ew : Engine.npv_worst o
                 = Spec.NPV (Engine.flows_worst (Engine.run_loop_float i sy))
                     (Engine.wacc i))
      by exact (f_equal (fun x => match x with Ok (_, w) => w | Raise _ => 0 end) E).
    rewrite Ea, Ew. exact Hle.
  - pose proof (eq_trans (eq_sym Hn) Hp) as E.
    assert (Ea : Engine.npv_avg o = 0)
      by exact (f_equal (fun x => match x with Ok (a, _) => a | Raise _ => 0 end) E).
    assert (Ew : Engine.npv_worst o = 0)
      by exact (f_equal (fun x => match x with Ok (_, w) => w | Raise _ => 0 end) E).
    rewrite Ea, Ew. apply Qle_refl.
Qed.


Lemma worst_case_below_average_witness :
  nth 10 (Engine.flows_worst (Engine.run_loop Cases.defaults 400000)) 0
  <= nth 10 (Engine.flows_avg (Engine.run_loop Cases.defaults 400000)) 0.
Proof.
  apply (proj1 (worst_case_below_average Cases.defaults 400000 10
                  ltac:(unfold Ranges.plausible; repeat split;
                        vm_compute; discriminate))).
Defined.

Lemma worst_npv_below_average_witness :
  exists o,
    Engine.compute Cases.defaults 400000 = Ok o
    /\ Engine.npv_worst o <= Engine.npv_avg o.
Proof.
  destruct (compute_ok Cases.defaults 400000 ltac:(vm_compute; reflexivity))
    as (npvs & irr & _ & _ & Hc).
  eexists. split; [exact Hc|].
  apply (worst_npv_below_average _ _ _ Hc).
  - unfold Ranges.plausible; repeat split; vm_compute; discriminate.
  - reflexivity.
Defined.


(* ===================================================================== *)
(** ** Further properties: edge cases of the solver                      *)
(* ===================================================================== *)

Section SolverEdges.

Import Irr Spec.

Lemma fold_Qplus_zero (l : list Q) :
  Forall (fun x => x == 0) l -> fold_left Qplus l 0 == 0.
Proof.
  induction 1 as [|x t Hx _ IH]; simpl; [reflexivity|].
  rewrite fold_Qplus_acc, IH, Hx. ring.
Qed.

Lemma derivative_terms_zero (t : list Q) (r : Q) :
  Forall (fun x => x == 0) t ->
  forall k,
    Forall (fun x => x == 0)
      (map (fun '(i, cf) => - of_nat i * cf / (1 + r) ^ Z.of_nat (i + 1))
           (enumerate_from k t)).
Proof.
  induction 1 as [|x t Hx _ IH]; intros k; simpl; constructor; [|apply IH].
  rewrite Hx. unfold Qdiv. ring.
Qed.

(** Without a flow after index 0 the derivative sum vanishes. *)
Lemma dNPV_no_inflow (c0 : Q) (t : list Q) (r : Q) :
  Forall (fun x => x == 0) t -> dNPV (c0 :: t) r == 0.
Proof.
  intros H. unfold dNPV, sum, enumerate.
  apply fold_Qplus_zero. cbn [enumerate_from map]. constructor.
  - unfold of_nat, Qdiv. simpl inject_Z. ring.
  - now apply derivative_terms_zero.
Qed.

Lemma flat_returns_none (series : list Q) (g : Q) (n : nat) :
  dNPV series g == 0 -> irr_loop (S n) series g = Ok None.
Proof.
  intros H0. cbn [irr_loop].
  destruct (domain_error_dec series g) as [Hd|Hd].
  - destruct (irr_body_raise series g Hd) as [e ->]. reflexivity.
  - rewrite (irr_body_ok series g Hd).
    assert (E : ltb (Qabs (dNPV series g)) 1e-10 = true)
      by (apply ltb_lt; rewrite H0; reflexivity).
    rewrite E. reflexivity.
Qed.

End SolverEdges.

(** X15.  A series with no flow after the outlay has no IRR: for an
    empty series, and for a series whose entries after index 0 are all
    zero, the solver returns undefined from every guess. *)
Theorem irr_undefined_without_inflow (c0 : Q) (t : list Q) (guess : Q) :
  Forall (fun x => x == 0) t ->
  Irr.calculate_irr (c0 :: t) guess = Ok None
  /\ Irr.calculate_irr [] guess = Ok None.
Proof.
  intros H. split; apply flat_returns_none.
  - now apply dNPV_no_inflow.
  - reflexivity.
Qed.

Lemma irr_undefined_without_inflow_witness :
  Irr.calculate_irr [-100; 0; 0] 0.1 = Ok None.
Proof.
  apply (proj1 (irr_undefined_without_inflow (-100) [0; 0] 0.1
                  ltac:(repeat constructor))).
Defined.

(** X16.  From a guess of -1 the solver returns undefined, whatever the
    series: the first evaluation divides by zero (or, for the empty
    series, meets a zero derivative). *)
Theorem irr_undefined_at_minus_one (series : list Q) (guess : Q) :
  1 + guess == 0 -> Irr.calculate_irr series guess = Ok None.
Proof.
  intros H. unfold Irr.calculate_irr. cbn [Irr.irr_loop].
  destruct series as [|c0 t].
  - reflexivity.
  - destruct (irr_body_raise (c0 :: t) guess) as [e ->]; [|reflexivity].
    split; [discriminate|left; exact H].
Qed.

Lemma irr_undefined_at_minus_one_witness :
  Irr.calculate_irr [-100; 60; 60] (-1) = Ok None.
Proof. apply (irr_undefined_at_minus_one [-100; 60; 60] (-1)). reflexivity. Defined.

(** X17.  A guess that is already a root is returned: when the NPV sum
    at the guess is zero and the derivative sum there has magnitude at
    least 1e-10, the solver returns after one iteration a rate equal to
    the guess. *)
Theorem irr_returns_exact_root (series : list Q) (guess v : Q) (dterms : list Q) :
  Engine.npv series guess = Ok v -> v == 0 ->
  Irr.derivative_terms series guess = Ok dterms ->
  1e-10 <= Qabs (sum dterms) ->
  exists r, Irr.calculate_irr series guess = Ok (Some r) /\ r == guess.
Proof.
  intros Hv Hv0 Hd Hflat.
  unfold Engine.npv in Hv.
  destruct (Irr.npv_terms series guess) as [terms|e] eqn:Et;
    [|discriminate]. cbn [bind] in Hv. injection Hv as <-.
  assert (Hq : ~ sum dterms == 0).
  { intros H0. rewrite H0 in Hflat. vm_compute in Hflat. now apply Hflat. }
  exists (guess - sum terms / sum dterms). split.
  - unfold Irr.calculate_irr. cbn [Irr.irr_loop]. unfold Irr.irr_body.
    rewrite Et, Hd. cbn [bind].
    rewrite (proj2 (ltb_ge _ _) Hflat), (div_ok _ _ Hq). cbn [bind].
    assert (E : ltb (Qabs (guess - sum terms / sum dterms - guess)) 1e-7 = true).
    { apply ltb_lt. rewrite Qabs_step, Hv0.
      setoid_replace (Qabs 0 / Qabs (sum dterms)) with 0
        by (unfold Qdiv; simpl (Qabs 0); ring).
      reflexivity. }
    rewrite E. reflexivity.
  - rewrite Hv0. unfold Qdiv. ring.
Qed.

Lemma irr_returns_exact_root_witness :
  exists r, Irr.calculate_irr [-100; 110] 0.1 = Ok (Some r) /\ r == 0.1.
Proof.
  eapply (irr_returns_exact_root [-100; 110] 0.1).
  - vm_compute. reflexivity.
  - vm_compute. reflexivity.
  - vm_compute. reflexivity.
  - vm_compute. discriminate.
Defined.

(* ===================================================================== *)
(** ** Further properties: location, yield lookup and the report         *)
(* ===================================================================== *)

(** X18.  An empty address is never looked up and gives the default
    coordinates.  For a non-empty address that the geocoder resolves, the
    resolved coordinates are used unless the latitude is 0, in which case
    the default coordinates are used as if the lookup had failed. *)
Theorem location_cases
    (geocode : string -> res (option (Q * Q))) (i : Engine.inputs) (la lo : Q) :
  (Engine.addr i = EmptyString ->
   Engine.location geocode i = Ok Engine.default_location)
  /\ (Engine.addr i <> EmptyString ->
      geocode (Engine.addr i) = Ok (Some (la, lo)) ->
      (~ la == 0 -> Engine.location geocode i = Ok (la, lo))
      /\ (la == 0 -> Engine.location geocode i = Ok Engine.default_location)).
Proof.
  unfold Engine.location, Helpers.get_coordinates, Engine.truthy. split.
  - intros ->. reflexivity.
  - intros Hne Hg. destruct (Engine.addr i) as [|c t] eqn:Ea; [congruence|].
    rewrite Hg. cbn [bind try_except]. split; intros H.
    + now rewrite (Qeq_bool_false la 0 H).
    + now rewrite (Qeq_eq_bool la 0 H).
Qed.

Lemma location_cases_witness :
  Engine.location (fun _ => Ok (Some (0, 32.58))) Cases.defaults
  = Ok Engine.default_location.
Proof.
  apply (proj2 (location_cases (fun _ => Ok (Some (0, 32.58))) Cases.defaults
                  0 32.58));
    [discriminate|reflexivity|reflexivity].
Defined.



Section Notes.

Import Report.

Lemma ltb_cases (a b : Q) :
  (ltb a b = true /\ a < b) \/ (ltb a b = false /\ b <= a).
Proof.
  destruct (ltb a b) eqn:E.
  - left. split; [reflexivity|now apply ltb_lt].
  - right. split; [reflexivity|now apply ltb_ge].
Qed.

End Notes.

(** X20.  The closing note is "Strong Buy" exactly when the worst-case
    NPV is positive, the risk warning exactly when the average NPV is
    positive and the worst-case NPV negative, and absent otherwise: when
    the worst-case NPV is zero, or negative with an average NPV that is not
    positive. *)
Theorem closing_note_cases (npv_avg npv_worst : Q) :
  (Report.closing_note npv_avg npv_worst = Report.StrongBuy
   <-> 0 < npv_worst)
  /\ (Report.closing_note npv_avg npv_worst = Report.RiskHinweis
      <-> 0 < npv_avg /\ npv_worst < 0)
  /\ (Report.closing_note npv_avg npv_worst = Report.NoNote
      <-> npv_worst == 0 \/ (npv_worst < 0 /\ npv_avg <= 0)).
Proof.
  unfold Report.closing_note.
  destruct (ltb_cases 0 npv_avg) as [[-> Ha]|[-> Ha]];
    destruct (ltb_cases npv_worst 0) as [[-> Hw]|[-> Hw]];
    destruct (ltb_cases 0 npv_worst) as [[-> Hp]|[-> Hp]];
    cbn [andb]; conjs; split; intros H; try discriminate; try reflexivity;
    try lra; try (destruct H; lra); try tauto.
  all: try (destruct H as [H|H]; lra).
  all: try (left; lra).
  all: try (right; lra).
Qed.

(** X21.  With the cost of capital at -100 % a returned outcome holds two
    NPVs of 0, the average one is labelled "Verlustgeschäft" and there is no
    closing note, whatever the cash flows are. *)
Theorem report_at_rate_minus_one
    (i : Engine.inputs) (sy : Q) (o : Engine.outcome) :
  Engine.compute i sy = Ok o ->
  Engine.wacc i == -1 ->
  Engine.npv_avg o = 0
  /\ Engine.npv_worst o = 0
  /\ Report.delta_val (Engine.npv_avg o) = Report.Verlustgeschaeft
  /\ Report.closing_note (Engine.npv_avg o) (Engine.npv_worst o)
     = Report.NoNote.
Proof.
  intros Hc Hw.
  destruct (compute_inv i sy o Hc) as (_ & _ & _ & _ & _ & Hn & _).
  assert (Hp : Engine.npv_pair (Engine.flows_avg (Engine.run_loop_float i sy))
                 (Engine.flows_worst (Engine.run_loop_float i sy))
                 (Engine.wacc i)
               = Ok (0, 0)).
  { apply npv_pair_minus_one; [lra|]. rewrite flows_avg_float_length. lia. }
  pose proof (eq_trans (eq_sym Hn) Hp) as E.
  assert (Ea : Engine.npv_avg o = 0)
    by exact (f_equal (fun x => match x with Ok (a, _) => a | Raise _ => 0 end) E).
  assert (Ew : Engine.npv_worst o = 0)
    by exact (f_equal (fun x => match x with Ok (_, w) => w | Raise _ => 0 end) E).
  rewrite Ea, Ew. conjs; reflexivity.
Qed.

Lemma report_at_rate_minus_one_witness :
  exists o,
    Engine.compute Cases.rate_minus_one 400000 = Ok o
    /\ Engine.npv_avg o = 0
    /\ Engine.npv_worst o = 0
    /\ Report.delta_val (Engine.npv_avg o) = Report.Verlustgeschaeft
    /\ Report.closing_note (Engine.npv_avg o) (Engine.npv_worst o)
       = Report.NoNote.
Proof.
  destruct (compute_ok Cases.rate_minus_one 400000
              ltac:(vm_compute; reflexivity)) as (npvs & irr & _ & _ & Hc).
  eexists. split; [exact Hc|].
  apply (report_at_rate_minus_one _ _ _ Hc). reflexivity.
Defined.


